(** * prisma-client-go, package [cli]: the schema shim and the CLI runner

    A shallow embedding of [cli/cli.go]: the two regular expressions of
    [shimSchemaCompatibility] run on a small backtracking matcher with
    Go's leftmost-first semantics, the file operations act on an explicit
    file-system state, and [Run] threads that state through its
    collaborators.

    Go strings are byte sequences: they are modelled as [list ascii].
    Both patterns only name ASCII bytes, every ASCII byte of a Go string
    starts a rune (also in ill-formed UTF-8), and the class [[^}]] accepts
    every rune that is not the byte 0x7D, so matching byte by byte yields
    the byte offsets Go reports. *)

From Stdlib Require Import Ascii String ZArith Lia Bool Arith List.
Import ListNotations.

Set Implicit Arguments.

(** ** Go strings *)

Definition gostring := list ascii.

Definition str (s : string) : gostring := list_ascii_of_string s.
Arguments str s%_string.

(** [a == b] *)
Fixpoint streq (a b : gostring) : bool :=
  match a, b with
  | [], [] => true
  | x :: a', y :: b' => Ascii.eqb x y && streq a' b'
  | _, _ => false
  end.

(** [strings.HasPrefix s prefix] *)
Fixpoint HasPrefix (s prefix : gostring) {struct prefix} : bool :=
  match prefix, s with
  | [], _ => true
  | p :: prefix', c :: s' => Ascii.eqb c p && HasPrefix s' prefix'
  | _ :: _, [] => false
  end.

(** [strings.TrimPrefix s prefix] *)
Definition TrimPrefix (s prefix : gostring) : gostring :=
  if HasPrefix s prefix then skipn (length prefix) s else s.

(** [s[lo:hi]] *)
Definition slice (s : gostring) (lo hi : nat) : gostring :=
  firstn (hi - lo) (skipn lo s).

Definition nl : ascii := "010"%char.
Definition dquote : ascii := "034"%char.
Definition lbrace : ascii := "{"%char.
Definition rbrace : ascii := "}"%char.

(** ** Character classes of Go's [regexp/syntax] *)

(** [\s] is [[\t\n\f\r ]]. *)
Definition is_space (c : ascii) : bool :=
  let n := nat_of_ascii c in
  (n =? 9) || (n =? 10) || (n =? 12) || (n =? 13) || (n =? 32).

(** [\w] is [[0-9A-Za-z_]]. *)
Definition is_word (c : ascii) : bool :=
  let n := nat_of_ascii c in
  ((48 <=? n) && (n <=? 57)) || ((65 <=? n) && (n <=? 90))
  || ((97 <=? n) && (n <=? 122)) || (n =? 95).

(** [[^}]] *)
Definition not_rbrace (c : ascii) : bool := negb (Ascii.eqb c rbrace).

(** ** A backtracking matcher for the fragment the two patterns use

    A pattern is a sequence of instructions, as in the program Go compiles
    a pattern to: a literal byte, a greedy repetition of a character class,
    the assertion [\b], and the capture instruction that records the
    current offset in a slot. *)

Module Regexp.

Inductive inst : Type :=
| Char (c : ascii)
| Plus (p : ascii -> bool)
| Star (p : ascii -> bool)
| WordBoundary
| Cap (n : nat).

Definition prog := list inst.

(** Slot writes, most recent first. *)
Definition caps := list (nat * nat).

Definition thread := (nat * caps)%type.

Definition is_word_opt (c : option ascii) : bool :=
  match c with Some x => is_word x | None => false end.

(** Greedy repetition: take one more byte of the class first, and only when
    the rest of the pattern fails after it continue from here. *)
Fixpoint star (p : ascii -> bool)
    (k : option ascii -> gostring -> nat -> option thread)
    (prev : option ascii) (s : gostring) (pos : nat) : option thread :=
  match s with
  | c :: s' =>
      if p c then
        match star p k (Some c) s' (S pos) with
        | Some r => Some r
        | None => k prev s pos
        end
      else k prev s pos
  | [] => k prev s pos
  end.

(** [exec re cs prev s pos]: match [re] against [s], which starts at offset
    [pos] of the text and is preceded there by [prev]. *)
Fixpoint exec (re : prog) (cs : caps)
    : option ascii -> gostring -> nat -> option thread :=
  match re with
  | [] => fun _ _ pos => Some (pos, cs)
  | Char c :: re' => fun _ s pos =>
      match s with
      | x :: s' => if Ascii.eqb x c then exec re' cs (Some x) s' (S pos) else None
      | [] => None
      end
  | Plus p :: re' => fun _ s pos =>
      match s with
      | x :: s' => if p x then star p (exec re' cs) (Some x) s' (S pos) else None
      | [] => None
      end
  | Star p :: re' => star p (exec re' cs)
  | WordBoundary :: re' => fun prev s pos =>
      if xorb (is_word_opt prev) (is_word_opt (hd_error s))
      then exec re' cs prev s pos else None
  | Cap n :: re' => fun prev s pos => exec re' ((n, pos) :: cs) prev s pos
  end.

(** Unanchored search: the leftmost offset at which [exec] succeeds. *)
Fixpoint search (re : prog) (prev : option ascii) (s : gostring) (pos : nat)
    : option thread :=
  match exec re [(0, pos)] prev s pos with
  | Some (e, cs) => Some (e, (1, e) :: cs)
  | None =>
      match s with
      | [] => None
      | c :: s' => search re (Some c) s' (S pos)
      end
  end.

Fixpoint slot (n : nat) (cs : caps) : Z :=
  match cs with
  | [] => (-1)%Z
  | (m, p) :: cs' => if n =? m then Z.of_nat p else slot n cs'
  end.

Definition is_cap (i : inst) : bool :=
  match i with Cap _ => true | _ => false end.

(** Two slots for the whole match and two for every group. *)
Definition nslots (re : prog) : nat := 2 + length (filter is_cap re).

(** [Regexp.FindStringSubmatchIndex]: [nil] without a match. *)
Definition FindStringSubmatchIndex (re : prog) (s : gostring) : list Z :=
  match search re None s 0 with
  | None => []
  | Some (_, cs) => map (fun n => slot n cs) (seq 0 (nslots re))
  end.

(** [Regexp.MatchString] *)
Definition MatchString (re : prog) (s : gostring) : bool :=
  match search re None s 0 with
  | None => false
  | Some _ => true
  end.

End Regexp.

Import Regexp.

(** ** The shim's decision, [cli.go] lines 108 to 137 *)

Definition keyword : gostring := str "datasource".

(** [(?s)datasource\s+\w+\s+\{([^}]+)\}] *)
Definition datasourceRegex : prog :=
  map Char keyword ++
  [Plus is_space; Plus is_word; Plus is_space; Char lbrace;
   Cap 2; Plus not_rbrace; Cap 3; Char rbrace].

(** [\burl\s*=] *)
Definition urlRegex : prog :=
  [WordBoundary; Char "u"; Char "r"; Char "l"; Star is_space; Char "="]%char.

(** The text that line 137 splices in: a newline, two blanks and
    [url = env("DB_URL")]. *)
Definition injected : gostring :=
  nl :: str "  url = env(" ++ dquote :: str "DB_URL" ++ dquote :: str ")".

Inductive ShimResult : Type :=
| Unchanged
| Patched (newSchemaStr : gostring).

Definition Evaluate (schemaStr : gostring) : ShimResult :=
  let match_ := FindStringSubmatchIndex datasourceRegex schemaStr in
  if length match_ <? 4 then Unchanged
  else
    let blockStart := Z.to_nat (nth 2 match_ 0%Z) in
    let blockEnd := Z.to_nat (nth 3 match_ 0%Z) in
    let blockContent := slice schemaStr blockStart blockEnd in
    if MatchString urlRegex blockContent then Unchanged
    else Patched (firstn blockStart schemaStr ++ injected
                    ++ skipn blockStart schemaStr).

Definition doc_postgres : gostring :=
  str "datasource db {" ++ nl :: str "  provider = " ++ dquote ::
  str "postgresql" ++ dquote :: nl :: str "}" ++ [nl].

Definition doc_postgres_patched : gostring :=
  str "datasource db {" ++ nl :: str "  url = env(" ++ dquote ::
  str "DB_URL" ++ dquote :: str ")" ++ nl :: str "  provider = " ++ dquote ::
  str "postgresql" ++ dquote :: nl :: str "}" ++ [nl].


(** ** Locating the schema and rewiring the arguments *)

Definition flag_schema : gostring := str "--schema".
Definition flag_schema_eq : gostring := str "--schema=".

(** The loop of [findSchemaPath], [cli.go] lines 186 to 193: [i] is the
    index of the iteration and [n] the number of iterations left. *)
Fixpoint findSchemaPath_from (args : list gostring) (i n : nat) : gostring :=
  match n with
  | 0 => []
  | S n' =>
      let arg := nth i args [] in
      if streq arg flag_schema && (i + 1 <? length args) then nth (i + 1) args []
      else if HasPrefix arg flag_schema_eq then TrimPrefix arg flag_schema_eq
      else findSchemaPath_from args (S i) n'
  end.

Definition findSchemaPath (args : list gostring) : gostring :=
  findSchemaPath_from args 0 (length args).

(** [l[i] = x] for an index in range. *)
Fixpoint set_nth {A : Type} (i : nat) (x : A) (l : list A) : list A :=
  match l, i with
  | [], _ => []
  | _ :: l', 0 => x :: l'
  | y :: l', S i' => y :: set_nth i' x l'
  end.

(** The loop of lines 157 to 168 over the copy [newArgs]; the boolean is
    [found]. *)
Fixpoint rewrite_from (newArgs : list gostring) (tmpName : gostring)
    (i n : nat) : list gostring * bool :=
  match n with
  | 0 => (newArgs, false)
  | S n' =>
      let arg := nth i newArgs [] in
      if streq arg flag_schema && (i + 1 <? length newArgs)
      then (set_nth (i + 1) tmpName newArgs, true)
      else if HasPrefix arg flag_schema_eq
      then (set_nth i (flag_schema_eq ++ tmpName) newArgs, true)
      else rewrite_from newArgs tmpName (S i) n'
  end.

(** Lines 153 to 176. *)
Definition rewriteArgs (args : list gostring) (tmpName : gostring)
    : list gostring :=
  let newArgs := args in
  let '(newArgs, found) := rewrite_from newArgs tmpName 0 (length newArgs) in
  if found then newArgs else newArgs ++ [flag_schema; tmpName].

(** ** The file system *)

(** A path names a file whose bytes can be read, or something that exists
    and cannot be read (a directory, a file without permission). *)
Inductive file : Type :=
| Contents (bytes : gostring)
| Unreadable.

Definition FS := gostring -> option file.

(** [os.Stat] succeeds *)
Definition Stat_ok (fs : FS) (p : gostring) : bool :=
  match fs p with Some _ => true | None => false end.

(** [os.ReadFile] *)
Definition ReadFile (fs : FS) (p : gostring) : option gostring :=
  match fs p with Some (Contents b) => Some b | _ => None end.

Definition put (fs : FS) (p : gostring) (f : file) : FS :=
  fun q => if streq q p then Some f else fs q.

(** [os.Remove]; the code discards its error. *)
Definition Remove (fs : FS) (p : gostring) : FS :=
  fun q => if streq q p then None else fs q.

(** What the operating system decides for the temporary file: the name
    [os.CreateTemp] settles on ([None] when it fails) and whether
    [WriteString] fails, and then after how many bytes. *)
Record Oracle : Type := {
  CreateTemp_pick : option gostring;
  WriteString_fails : option nat
}.

(** [os.CreateTemp] opens with [O_EXCL]: the file is new, and a name
    that is taken is never handed out. *)
Definition CreateTemp (o : Oracle) (fs : FS) : option (FS * gostring) :=
  match CreateTemp_pick o with
  | Some name =>
      match fs name with
      | None => Some (put fs name (Contents []), name)
      | Some _ => None
      end
  | None => None
  end.

(** [tmpFile.WriteString]: the new state and whether the write failed. *)
Definition WriteString (o : Oracle) (fs : FS) (name data : gostring)
    : FS * bool :=
  match WriteString_fails o with
  | Some n => (put fs name (Contents (firstn n data)), true)
  | None => (put fs name (Contents data), false)
  end.

Inductive error : Type :=
| OSError (msg : gostring)
| Wrapped (context : gostring) (args : list gostring) (cause : error).

(** The closure [func() { os.Remove(tmpFile.Name()) }]. *)
Inductive disposer : Type :=
| RemoveFile (name : gostring).

Definition call (d : disposer) (fs : FS) : FS :=
  match d with RemoveFile name => Remove fs name end.

(** Lines 80 to 100: the flag, then the two default locations. *)
Definition defaultPaths : list gostring :=
  [str "./schema.prisma"; str "./prisma/schema.prisma"].

Fixpoint first_existing (fs : FS) (ps : list gostring) : gostring :=
  match ps with
  | [] => []
  | p :: ps' => if Stat_ok fs p then p else first_existing fs ps'
  end.

Definition locate (fs : FS) (args : list gostring) : gostring :=
  let schemaPath := findSchemaPath args in
  if streq schemaPath [] then first_existing fs defaultPaths else schemaPath.

Definition shim_result : Type :=
  (list gostring * option disposer * option error)%type.

(** [shimSchemaCompatibility], lines 79 to 183. *)
Definition shimSchemaCompatibility (o : Oracle) (fs : FS)
    (args : list gostring) : FS * shim_result :=
  let schemaPath := locate fs args in
  if streq schemaPath [] then (fs, (args, None, None))
  else
    match ReadFile fs schemaPath with
    | None => (fs, (args, None, None))
    | Some content =>
        match Evaluate content with
        | Unchanged => (fs, (args, None, None))
        | Patched newSchemaStr =>
            match CreateTemp o fs with
            | None =>
                (fs, (args, None,
                      Some (Wrapped (str "could not create temp schema file") []
                              (OSError (str "CreateTemp")))))
            | Some (fs1, tmpName) =>
                match WriteString o fs1 tmpName newSchemaStr with
                | (fs2, true) =>
                    (Remove fs2 tmpName,
                     (args, None,
                      Some (Wrapped (str "could not write to temp schema file") []
                              (OSError (str "WriteString")))))
                | (fs2, false) =>
                    (fs2, (rewriteArgs args tmpName,
                           Some (RemoveFile tmpName), None))
                end
            end
        end
    end.

(** ** The runner *)

Record Engine : Type := { Name : gostring; Env : gostring }.

(** The command handed to the operating system: [Args] are the arguments
    after the program name, and the three booleans say which standard
    streams of the parent are connected. *)
Record Cmd : Type := {
  Path : gostring;
  Args : list gostring;
  CmdEnv : list gostring;
  Stdin : bool;
  Stdout : bool;
  Stderr : bool
}.

(** The collaborators of [Run] that live outside [cli.go]: the packages
    [binaries] and [platform], the process environment, [path.Join] and the
    child process, which may change the file system. *)
Record Host : Type := {
  GlobalCacheDir : gostring;
  FetchNative : gostring -> FS -> FS * option error;
  PrismaCLIName : gostring;
  BinaryName : gostring;
  Engines : list Engine;
  EngineVersion : gostring;
  Environ : list gostring;
  Getenv : gostring -> gostring;
  path_Join : list gostring -> gostring;
  cmd_Run : Cmd -> FS -> FS * option error;
  temp_oracle : Oracle
}.

(** Lines 51 to 58. *)
Definition engine_value (h : Host) (dir binaryName : gostring)
    (engine : Engine) : gostring :=
  let env := Getenv h (Env engine) in
  if negb (streq env []) then env
  else path_Join h [dir; EngineVersion h;
                    str "prisma-" ++ Name engine ++ str "-" ++ binaryName].

Definition engine_entry (h : Host) (dir binaryName : gostring)
    (engine : Engine) : gostring :=
  Env engine ++ str "=" ++ engine_value h dir binaryName engine.

(** Lines 46 to 61: [cmd.Env] grows by [append]. *)
Definition build_env (h : Host) (dir binaryName : gostring) : list gostring :=
  let env := Environ h in
  let env := env ++ [str "PRISMA_HIDE_UPDATE_MESSAGE=true"] in
  let env := env ++ [str "PRISMA_CLI_QUERY_ENGINE_TYPE=binary"] in
  fold_left (fun env engine => env ++ [engine_entry h dir binaryName engine])
            (Engines h) env.

(** The deferred call of line 38 at a return of [Run]. *)
Definition run_deferred (cleanup : option disposer) (fs : FS) : FS :=
  match cleanup with
  | Some d => call d fs
  | None => fs
  end.

Record outcome : Type := {
  final_fs : FS;
  returned : option error;
  spawned : option Cmd
}.

(** Lines 43 to 68: the command with its environment and streams. *)
Definition command (h : Host) (arguments : list gostring) (output : bool)
    : Cmd :=
  {| Path := path_Join h [GlobalCacheDir h; PrismaCLIName h];
     Args := arguments;
     CmdEnv := build_env h (GlobalCacheDir h) (BinaryName h);
     Stdin := true;
     Stdout := output;
     Stderr := output |}.

(** [Run], lines 17 to 75. *)
Definition Run (h : Host) (arguments : list gostring) (output : bool)
    (fs : FS) : outcome :=
  let dir := GlobalCacheDir h in
  match FetchNative h dir fs with
  | (fs1, Some err) =>
      {| final_fs := fs1;
         returned := Some (Wrapped (str "could not fetch binaries") [] err);
         spawned := None |}
  | (fs1, None) =>
      match shimSchemaCompatibility (temp_oracle h) fs1 arguments with
      | (fs2, (_, _, Some err)) =>
          {| final_fs := fs2;
             returned := Some (Wrapped (str "failed to shim schema") [] err);
             spawned := None |}
      | (fs2, (arguments, cleanup, None)) =>
          let cmd := command h arguments output in
          match cmd_Run h cmd fs2 with
          | (fs3, Some err) =>
              {| final_fs := run_deferred cleanup fs3;
                 returned := Some (Wrapped (str "could not run") arguments err);
                 spawned := Some cmd |}
          | (fs3, None) =>
              {| final_fs := run_deferred cleanup fs3;
                 returned := None;
                 spawned := Some cmd |}
          end
      end
  end.

(** Modelled from the spec: the resolution rule of the process that
    consumes the environment, which is not part of [cli.go]: of the
    entries [key=value] for one key the last one wins. *)
Fixpoint effective (key : gostring) (env : list gostring) : option gostring :=
  match env with
  | [] => None
  | entry :: env' =>
      match effective key env' with
      | Some v => Some v
      | None =>
          if HasPrefix entry (key ++ str "=")
          then Some (skipn (length key + 1) entry) else None
      end
  end.

(** ** The datasource block and the url property, declaratively *)

Definition all (p : ascii -> bool) (s : gostring) : Prop :=
  forallb p s = true.

(** The header of a block up to its brace: the keyword, blanks, an
    identifier, blanks. *)
Definition is_header (h : gostring) : Prop :=
  exists ws1 id ws2,
    h = keyword ++ ws1 ++ id ++ ws2 /\
    ws1 <> [] /\ all is_space ws1 /\
    id <> [] /\ all is_word id /\
    ws2 <> [] /\ all is_space ws2.

(** [s] begins with a block whose body is [body]. *)
Definition block_here (s body : gostring) (h : gostring) : Prop :=
  exists rest,
    is_header h /\ s = h ++ lbrace :: body ++ rbrace :: rest /\
    body <> [] /\ all not_rbrace body.

(** A block starts at offset [i] of [doc]; its body is [doc[bs:be]]. *)
Definition block_at (doc : gostring) (i bs be : nat) : Prop :=
  exists pre h body rest,
    doc = pre ++ h ++ lbrace :: body ++ rbrace :: rest /\
    is_header h /\ body <> [] /\ all not_rbrace body /\
    i = length pre /\ bs = i + length h + 1 /\ be = bs + length body.

(** The first block of the document. *)
Definition first_block (doc : gostring) (i bs be : nat) : Prop :=
  block_at doc i bs be /\
  forall j bs' be', j < i -> ~ block_at doc j bs' be'.

(** [url], blanks, [=], with no word byte right before [url]. *)
Definition has_url_property (body : gostring) : Prop :=
  exists a ws b,
    body = a ++ str "url" ++ ws ++ "="%char :: b /\
    all is_space ws /\
    (forall a' c, a = a' ++ [c] -> is_word c = false).

(** A document that contains a block, anywhere, with any body up to the
    first closing brace, and no url property in that body. *)
Definition contains_block_without_url (doc : gostring) : Prop :=
  exists pre h body rest,
    doc = pre ++ h ++ lbrace :: body ++ rbrace :: rest /\
    is_header h /\ all not_rbrace body /\ ~ has_url_property body.

Definition doc_two_blocks : gostring :=
  str "datasource a { url = 1 } datasource b { provider = 2 }".

Definition doc_empty_block : gostring := str "datasource db {}".

Definition doc_commented_url : gostring :=
  str "datasource db {" ++ nl :: str "  // url = env(" ++ dquote ::
  str "X" ++ dquote :: str ")" ++ nl :: str "  provider = " ++ dquote ::
  str "postgresql" ++ dquote :: nl :: str "}" ++ [nl].

(** ** The schema flag in an argument list, declaratively *)

(** A token that is [--schema] or starts with [--schema=]. *)
Definition is_flag_token (a : gostring) : bool :=
  streq a flag_schema || HasPrefix a flag_schema_eq.

(** No [--schema=value] token and no [--schema] followed by a token. *)
Definition no_schema_flag (args : list gostring) : Prop :=
  forall pre a post, args = pre ++ a :: post ->
    HasPrefix a flag_schema_eq = false /\ (a = flag_schema -> post = []).

(** The thread the datasource pattern ends in on a block with header [h]
    and body [body] that starts at offset [pos]: the end of the match and
    the two slots of the group. *)
Definition block_thread (cs : caps) (pos : nat) (h body : gostring) : thread :=
  (pos + length h + 1 + length body + 1,
   (3, pos + length h + 1 + length body) :: (2, pos + length h + 1) :: cs).

(** ** A concrete host

    One schema file [a.prisma] that needs the patch, a user override for
    the first of two engines, and a child process that fails. *)

Definition demo_join (elems : list gostring) : gostring :=
  match elems with
  | [] => []
  | e :: es => fold_left (fun acc x => acc ++ str "/" ++ x) es e
  end.

Definition demo_fs : FS :=
  put (fun _ => None) (str "a.prisma") (Contents doc_postgres).

Definition demo_tmp : gostring := str "/tmp/schema-1.prisma".

Definition demo_host : Host :=
  {| GlobalCacheDir := str "/cache";
     FetchNative := fun _ fs => (fs, None);
     PrismaCLIName := str "prisma-cli";
     BinaryName := str "linux";
     Engines :=
       [ {| Name := str "query-engine";
            Env := str "PRISMA_QUERY_ENGINE_BINARY" |};
         {| Name := str "migration-engine";
            Env := str "PRISMA_MIGRATION_ENGINE_BINARY" |} ];
     EngineVersion := str "v1";
     Environ := [str "HOME=/root"; str "PRISMA_QUERY_ENGINE_BINARY=/custom/qe"];
     Getenv := fun k =>
       if streq k (str "PRISMA_QUERY_ENGINE_BINARY") then str "/custom/qe"
       else if streq k (str "HOME") then str "/root" else [];
     path_Join := demo_join;
     cmd_Run := fun _ fs => (fs, Some (OSError (str "exit status 1")));
     temp_oracle :=
       {| CreateTemp_pick := Some demo_tmp; WriteString_fails := None |} |}.

Definition doc_with_url : gostring := str "datasource db { url=1 }".

Definition fs_with_url : FS :=
  put (fun _ => None) (str "b.prisma") (Contents doc_with_url).



Definition demo_args : list gostring :=
  [str "migrate"; str "dev"; str "--schema=a.prisma"].

(** The byte before the offset reached after reading [run]. *)
Definition prev_after (prev : option ascii) (run : gostring) : option ascii :=
  fold_left (fun _ c => Some c) run prev.

(** A continuation that fails on every input starting with a byte of the
    class [p]. *)
Definition rejects (p : ascii -> bool)
    (k : option ascii -> gostring -> nat -> option thread) : Prop :=
  forall prev c t pos, p c = true -> k prev (c :: t) pos = None.

(** [rest] does not start with a byte of the class [p]. *)
Definition stops (p : ascii -> bool) (rest : gostring) : Prop :=
  match rest with
  | c :: _ => p c = false
  | [] => True
  end.


(** * Theorems *)


(** ** Character classes *)

Lemma space_not_word c : is_space c = true -> is_word c = false.
Proof. destruct c as [[] [] [] [] [] [] [] []]; vm_compute; congruence. Qed.

Lemma word_not_space c : is_word c = true -> is_space c = false.
Proof. destruct c as [[] [] [] [] [] [] [] []]; vm_compute; congruence. Qed.

Lemma space_not_lbrace c : is_space c = true -> Ascii.eqb c lbrace = false.
Proof. destruct c as [[] [] [] [] [] [] [] []]; vm_compute; congruence. Qed.

Lemma word_not_lbrace c : is_word c = true -> Ascii.eqb c lbrace = false.
Proof. destruct c as [[] [] [] [] [] [] [] []]; vm_compute; congruence. Qed.

Lemma not_rbrace_spec c : not_rbrace c = true <-> c <> rbrace.
Proof.
  unfold not_rbrace. rewrite negb_true_iff.
  destruct (Ascii.eqb_spec c rbrace); split; congruence.
Qed.

Lemma all_app p (a b : gostring) : all p (a ++ b) <-> all p a /\ all p b.
Proof. unfold all. rewrite forallb_app, andb_true_iff. tauto. Qed.

Lemma all_cons p c (a : gostring) : all p (c :: a) <-> p c = true /\ all p a.
Proof. unfold all. cbn [forallb]. rewrite andb_true_iff. tauto. Qed.

Lemma all_In p (a : gostring) c : all p a -> In c a -> p c = true.
Proof. unfold all. rewrite forallb_forall. auto. Qed.

Lemma prev_after_app prev a b :
  prev_after prev (a ++ b) = prev_after (prev_after prev a) b.
Proof. unfold prev_after. apply fold_left_app. Qed.

Lemma prev_after_snoc prev a c : prev_after prev (a ++ [c]) = Some c.
Proof. rewrite prev_after_app. reflexivity. Qed.

(** ** The matcher, instruction by instruction *)

Lemma star_sound p k prev s pos r :
  star p k prev s pos = Some r ->
  exists run rest,
    s = run ++ rest /\ all p run /\
    k (prev_after prev run) rest (pos + length run) = Some r.
Proof.
  revert prev pos. induction s as [|c s IH]; intros prev pos H.
  - exists [], []. cbn in *. rewrite Nat.add_0_r. now repeat split.
  - cbn [star] in H. destruct (p c) eqn:Hc.
    + destruct (star p k (Some c) s (S pos)) as [r'|] eqn:Hs.
      * injection H as <-. apply IH in Hs.
        destruct Hs as (run & rest & -> & Hall & Hk).
        exists (c :: run), rest. repeat split.
        -- apply all_cons. auto.
        -- cbn [length prev_after fold_left].
           replace (pos + S (length run)) with (S pos + length run) by lia.
           exact Hk.
      * exists [], (c :: s). cbn. rewrite Nat.add_0_r. now repeat split.
    + exists [], (c :: s). cbn. rewrite Nat.add_0_r. now repeat split.
Qed.

Lemma star_greedy p k prev run rest pos :
  all p run -> stops p rest -> rejects p k ->
  star p k prev (run ++ rest) pos
  = k (prev_after prev run) rest (pos + length run).
Proof.
  intros Hall Hstop Hrej. revert prev pos.
  induction run as [|x run IH]; intros prev pos.
  - cbn [app length prev_after fold_left]. rewrite Nat.add_0_r.
    destruct rest as [|c t]; [reflexivity|].
    cbn [star]. cbn in Hstop. rewrite Hstop. reflexivity.
  - apply all_cons in Hall. destruct Hall as [Hx Hall].
    cbn [app star]. rewrite Hx, (IH Hall).
    cbn [length prev_after fold_left].
    replace (pos + S (length run)) with (S pos + length run) by lia.
    destruct (k _ rest (S pos + length run)) eqn:Hk; [reflexivity|].
    apply Hrej. exact Hx.
Qed.

Lemma exec_Char_inv c re cs prev s pos r :
  exec (Char c :: re) cs prev s pos = Some r ->
  exists t, s = c :: t /\ exec re cs (Some c) t (S pos) = Some r.
Proof.
  cbn [exec]. destruct s as [|x t]; [discriminate|].
  destruct (Ascii.eqb_spec x c); [subst|discriminate]. eauto.
Qed.

Lemma exec_Char c re cs prev t pos :
  exec (Char c :: re) cs prev (c :: t) pos = exec re cs (Some c) t (S pos).
Proof. cbn [exec]. rewrite Ascii.eqb_refl. reflexivity. Qed.

Lemma exec_Chars_inv w re cs prev s pos r :
  exec (map Char w ++ re) cs prev s pos = Some r ->
  exists t, s = w ++ t /\
    exec re cs (prev_after prev w) t (pos + length w) = Some r.
Proof.
  revert prev s pos. induction w as [|c w IH]; intros prev s pos H.
  - exists s. cbn in *. rewrite Nat.add_0_r. auto.
  - cbn [map app] in H. apply exec_Char_inv in H.
    destruct H as (t & -> & H). apply IH in H.
    destruct H as (t' & -> & H). exists t'. split; [reflexivity|].
    cbn [length prev_after fold_left].
    replace (pos + S (length w)) with (S pos + length w) by lia. exact H.
Qed.

Lemma exec_Chars w re cs prev t pos :
  exec (map Char w ++ re) cs prev (w ++ t) pos
  = exec re cs (prev_after prev w) t (pos + length w).
Proof.
  revert prev pos. induction w as [|c w IH]; intros prev pos.
  - cbn. rewrite Nat.add_0_r. reflexivity.
  - cbn [map app]. rewrite exec_Char, IH.
    cbn [length prev_after fold_left].
    replace (pos + S (length w)) with (S pos + length w) by lia. reflexivity.
Qed.

Lemma exec_Plus_inv p re cs prev s pos r :
  exec (Plus p :: re) cs prev s pos = Some r ->
  exists run rest,
    s = run ++ rest /\ run <> [] /\ all p run /\
    exec re cs (prev_after prev run) rest (pos + length run) = Some r.
Proof.
  cbn [exec]. destruct s as [|x t]; [discriminate|].
  destruct (p x) eqn:Hx; [|discriminate].
  intros H. apply star_sound in H. destruct H as (run & rest & -> & Hall & H).
  exists (x :: run), rest. repeat split.
  - discriminate.
  - apply all_cons. auto.
  - cbn [length prev_after fold_left].
    replace (pos + S (length run)) with (S pos + length run) by lia. exact H.
Qed.

Lemma exec_Plus p re cs prev run rest pos :
  run <> [] -> all p run -> stops p rest -> rejects p (exec re cs) ->
  exec (Plus p :: re) cs prev (run ++ rest) pos
  = exec re cs (prev_after prev run) rest (pos + length run).
Proof.
  intros Hne Hall Hstop Hrej. destruct run as [|x run]; [congruence|].
  apply all_cons in Hall. destruct Hall as [Hx Hall].
  cbn [app exec]. rewrite Hx, (star_greedy _ _ _ Hall Hstop Hrej).
  cbn [length prev_after fold_left].
  replace (pos + S (length run)) with (S pos + length run) by lia. reflexivity.
Qed.

Lemma rejects_Plus p q re cs :
  (forall c, p c = true -> q c = false) -> rejects p (exec (Plus q :: re) cs).
Proof. intros H prev c t pos Hc. cbn [exec]. rewrite (H c Hc). reflexivity. Qed.

Lemma rejects_Char p x re cs :
  (forall c, p c = true -> Ascii.eqb c x = false) ->
  rejects p (exec (Char x :: re) cs).
Proof. intros H prev c t pos Hc. cbn [exec]. rewrite (H c Hc). reflexivity. Qed.

Lemma rejects_Cap p n re :
  (forall cs, rejects p (exec re cs)) -> forall cs, rejects p (exec (Cap n :: re) cs).
Proof. intros H cs prev c t pos Hc. cbn [exec]. apply H. exact Hc. Qed.


(** ** Unanchored search *)

Lemma search_inv re prev s pos r :
  search re prev s pos = Some r ->
  exists i e cs,
    i <= length s /\
    exec re [(0, pos + i)] (prev_after prev (firstn i s)) (skipn i s) (pos + i)
      = Some (e, cs) /\
    r = (e, (1, e) :: cs) /\
    forall j, j < i ->
      exec re [(0, pos + j)] (prev_after prev (firstn j s)) (skipn j s) (pos + j)
        = None.
Proof.
  revert prev pos. induction s as [|c s IH]; intros prev pos H; cbn [search] in H.
  - destruct (exec re [(0, pos)] prev [] pos) as [[e cs]|] eqn:He; [|discriminate].
    injection H as <-. exists 0, e, cs. cbn. rewrite Nat.add_0_r.
    repeat split; auto. intros j Hj. lia.
  - destruct (exec re [(0, pos)] prev (c :: s) pos) as [[e cs]|] eqn:He.
    + injection H as <-. exists 0, e, cs. cbn [firstn skipn prev_after fold_left].
      rewrite Nat.add_0_r. repeat split; auto; [cbn; lia|]. intros j Hj. lia.
    + apply IH in H. destruct H as (i & e & cs & Hi & Hex & -> & Hmin).
      exists (S i), e, cs. cbn [firstn skipn prev_after fold_left length].
      replace (pos + S i) with (S pos + i) by lia.
      repeat split; auto; [lia|]. intros [|j] Hj.
      * cbn. rewrite Nat.add_0_r. exact He.
      * cbn [firstn skipn prev_after fold_left].
        replace (pos + S j) with (S pos + j) by lia. apply Hmin. lia.
Qed.

Lemma search_none re prev s pos :
  search re prev s pos = None ->
  forall j, j <= length s ->
    exec re [(0, pos + j)] (prev_after prev (firstn j s)) (skipn j s) (pos + j)
      = None.
Proof.
  revert prev pos. induction s as [|c s IH]; intros prev pos H j Hj;
    cbn [search] in H.
  - cbn in Hj. assert (j = 0) as -> by lia. cbn. rewrite Nat.add_0_r.
    destruct (exec re [(0, pos)] prev [] pos) as [[e cs]|]; [discriminate|reflexivity].
  - destruct (exec re [(0, pos)] prev (c :: s) pos) as [[e cs]|] eqn:He;
      [discriminate|].
    destruct j as [|j].
    + cbn. rewrite Nat.add_0_r. exact He.
    + cbn [firstn skipn prev_after fold_left].
      replace (pos + S j) with (S pos + j) by lia. apply IH; [exact H|].
      cbn in Hj. lia.
Qed.

(** ** The datasource pattern finds exactly the blocks *)

Lemma keyword_length : length keyword = 10.
Proof. reflexivity. Qed.

Lemma rejects_after_ws1 re cs :
  rejects is_space (exec (Plus is_word :: re) cs).
Proof. apply rejects_Plus. exact space_not_word. Qed.

Lemma rejects_after_id re cs :
  rejects is_word (exec (Plus is_space :: re) cs).
Proof. apply rejects_Plus. exact word_not_space. Qed.

Lemma rejects_after_ws2 re cs :
  rejects is_space (exec (Char lbrace :: re) cs).
Proof. apply rejects_Char. exact space_not_lbrace. Qed.

Lemma rejects_after_body cs :
  rejects not_rbrace (exec [Cap 3; Char rbrace] cs).
Proof.
  intros prev c t pos Hc. cbn [exec]. unfold not_rbrace in Hc.
  apply negb_true_iff in Hc. rewrite Hc. reflexivity.
Qed.

Lemma stops_of_nonempty p q (a b : gostring) :
  a <> [] -> all q a -> (forall c, q c = true -> p c = false) -> stops p (a ++ b).
Proof.
  intros Hne Hall Hpq. destruct a as [|c a]; [congruence|].
  apply all_cons in Hall. cbn. apply Hpq. tauto.
Qed.

Ltac thread_eq :=
  unfold block_thread; rewrite ?length_app; cbn [length];
  rewrite ?keyword_length; repeat (f_equal; try lia).

Lemma exec_datasource_sound cs prev s pos r :
  exec datasourceRegex cs prev s pos = Some r ->
  exists h body, block_here s body h /\ r = block_thread cs pos h body.
Proof.
  unfold datasourceRegex. intros H.
  apply exec_Chars_inv in H. destruct H as (t0 & -> & H).
  apply exec_Plus_inv in H. destruct H as (ws1 & t1 & -> & Hn1 & Ha1 & H).
  apply exec_Plus_inv in H. destruct H as (id & t2 & -> & Hn2 & Ha2 & H).
  apply exec_Plus_inv in H. destruct H as (ws2 & t3 & -> & Hn3 & Ha3 & H).
  apply exec_Char_inv in H. destruct H as (t4 & -> & H).
  cbn [exec] in H.
  destruct t4 as [|x t4]; [discriminate|].
  destruct (not_rbrace x) eqn:Hx; [|discriminate].
  apply star_sound in H. destruct H as (run & t5 & -> & Ha4 & H).
  cbn [exec] in H.
  destruct t5 as [|y t5]; [discriminate|].
  destruct (Ascii.eqb_spec y rbrace); [subst y|discriminate].
  injection H as <-.
  exists (keyword ++ ws1 ++ id ++ ws2), (x :: run). split.
  - exists t5. split; [exists ws1, id, ws2; now repeat split|].
    split; [now rewrite <- !app_assoc|].
    split; [discriminate|]. apply all_cons. auto.
  - thread_eq.
Qed.

Lemma exec_datasource_complete cs prev s pos h body :
  block_here s body h ->
  exec datasourceRegex cs prev s pos = Some (block_thread cs pos h body).
Proof.
  intros (rest & (ws1 & id & ws2 & -> & Hn1 & Ha1 & Hn2 & Ha2 & Hn3 & Ha3)
          & -> & Hnb & Hab).
  unfold datasourceRegex. rewrite <- !app_assoc, exec_Chars.
  rewrite exec_Plus;
    [ | assumption | assumption
      | apply stops_of_nonempty with (q := is_word);
        auto using word_not_space
      | apply rejects_after_ws1 ].
  rewrite exec_Plus;
    [ | assumption | assumption
      | apply stops_of_nonempty with (q := is_space);
        auto using space_not_word
      | apply rejects_after_id ].
  rewrite exec_Plus;
    [ | assumption | assumption | reflexivity | apply rejects_after_ws2 ].
  rewrite exec_Char. cbn [exec].
  destruct body as [|x body]; [congruence|].
  apply all_cons in Hab. destruct Hab as [Hx Hab].
  cbn [app]. rewrite Hx.
  rewrite star_greedy;
    [ | assumption | cbn; reflexivity | apply rejects_after_body ].
  cbn [exec]. rewrite Ascii.eqb_refl.
  f_equal. thread_eq.
Qed.


(** ** Slices *)

Lemma firstn_exact {A} (a b : list A) : firstn (length a) (a ++ b) = a.
Proof. induction a; cbn; congruence. Qed.

Lemma skipn_exact {A} (a b : list A) : skipn (length a) (a ++ b) = b.
Proof. induction a; cbn; congruence. Qed.

Lemma block_at_here doc i bs be :
  block_at doc i bs be <->
  i <= length doc /\
  exists h body, block_here (skipn i doc) body h /\
    bs = i + length h + 1 /\ be = bs + length body.
Proof.
  split.
  - intros (pre & h & body & rest & -> & Hh & Hn & Ha & -> & -> & ->).
    split; [rewrite length_app; lia|].
    exists h, body. rewrite skipn_exact. repeat split; auto.
    exists rest. auto.
  - intros (Hi & h & body & (rest & Hh & Hs & Hn & Ha) & -> & ->).
    exists (firstn i doc), h, body, rest.
    rewrite <- Hs, firstn_skipn, length_firstn.
    repeat split; auto; lia.
Qed.

Lemma block_thread_inj cs pos h body h' body' :
  block_thread cs pos h body = block_thread cs pos h' body' ->
  length h = length h' /\ length body = length body'.
Proof. unfold block_thread. intros H. injection H. lia. Qed.

Lemma block_at_unique doc i bs be bs' be' :
  block_at doc i bs be -> block_at doc i bs' be' -> bs = bs' /\ be = be'.
Proof.
  rewrite !block_at_here.
  intros (_ & h & body & Hb & -> & ->) (_ & h' & body' & Hb' & -> & ->).
  pose proof (exec_datasource_complete [] None 0 Hb) as E.
  rewrite (exec_datasource_complete [] None 0 Hb') in E.
  assert (block_thread [] 0 h' body' = block_thread [] 0 h body) as E'
    by congruence.
  apply block_thread_inj in E'. lia.
Qed.

(** ** [FindStringSubmatchIndex] of the datasource pattern *)

Lemma find_datasource_cases doc :
  (FindStringSubmatchIndex datasourceRegex doc = [] /\
   forall i bs be, ~ block_at doc i bs be) \/
  (exists i bs be,
     first_block doc i bs be /\
     FindStringSubmatchIndex datasourceRegex doc
     = [Z.of_nat i; Z.of_nat (be + 1); Z.of_nat bs; Z.of_nat be]).
Proof.
  unfold FindStringSubmatchIndex.
  destruct (search datasourceRegex None doc 0) as [r|] eqn:Hs.
  - right. apply search_inv in Hs.
    destruct Hs as (i & e & cs & Hi & Hex & -> & Hmin).
    apply exec_datasource_sound in Hex. destruct Hex as (h & body & Hb & E).
    cbn [Nat.add] in *. injection E as -> ->.
    exists i, (i + length h + 1), (i + length h + 1 + length body).
    split; [split|].
    + apply block_at_here. split; [exact Hi|]. exists h, body. auto.
    + intros j bs' be' Hj Hblk. apply block_at_here in Hblk.
      destruct Hblk as (_ & h' & body' & Hb' & _).
      specialize (Hmin j Hj). cbn [Nat.add] in Hmin.
      rewrite (exec_datasource_complete _ _ _ Hb') in Hmin. discriminate.
    + change (nslots datasourceRegex) with 4. reflexivity.
  - left. split; [reflexivity|]. intros i bs be Hblk.
    apply block_at_here in Hblk. destruct Hblk as (Hi & h & body & Hb & _).
    pose proof (search_none _ _ _ _ Hs Hi) as Hn. cbn [Nat.add] in Hn.
    rewrite (exec_datasource_complete _ _ _ Hb) in Hn. discriminate.
Qed.

Lemma first_block_unique doc i bs be i' bs' be' :
  first_block doc i bs be -> first_block doc i' bs' be' ->
  i = i' /\ bs = bs' /\ be = be'.
Proof.
  intros [Hb Hmin] [Hb' Hmin'].
  assert (i = i') as <-.
  { destruct (Nat.lt_total i i') as [Hlt|[Heq|Hgt]]; [|exact Heq|].
    - exfalso. exact (Hmin' _ _ _ Hlt Hb).
    - exfalso. exact (Hmin _ _ _ Hgt Hb'). }
  split; [reflexivity|]. exact (block_at_unique Hb Hb').
Qed.

Lemma find_first_block doc i bs be :
  first_block doc i bs be ->
  FindStringSubmatchIndex datasourceRegex doc
  = [Z.of_nat i; Z.of_nat (be + 1); Z.of_nat bs; Z.of_nat be].
Proof.
  intros Hf. destruct (find_datasource_cases doc) as [[_ Hno]|(j & bs' & be' & Hf' & E)].
  - exfalso. destruct Hf as [Hb _]. exact (Hno _ _ _ Hb).
  - destruct (first_block_unique Hf Hf') as (-> & -> & ->). exact E.
Qed.

Lemma Evaluate_no_block doc :
  (forall i bs be, ~ block_at doc i bs be) -> Evaluate doc = Unchanged.
Proof.
  intros Hno. unfold Evaluate.
  destruct (find_datasource_cases doc) as [[-> _]|(i & bs & be & [Hb _] & _)].
  - reflexivity.
  - exfalso. exact (Hno _ _ _ Hb).
Qed.

Lemma Evaluate_first_block doc i bs be :
  first_block doc i bs be ->
  Evaluate doc =
  if MatchString urlRegex (slice doc bs be) then Unchanged
  else Patched (firstn bs doc ++ injected ++ skipn bs doc).
Proof.
  intros Hf. unfold Evaluate. rewrite (find_first_block Hf).
  cbn [length Nat.ltb Nat.leb nth]. rewrite !Nat2Z.id. reflexivity.
Qed.

(** The parts of a document around the body of a block. *)
Lemma block_at_parts pre h body rest :
  let doc := pre ++ h ++ lbrace :: body ++ rbrace :: rest in
  let bs := length pre + length h + 1 in
  firstn bs doc = pre ++ h ++ [lbrace] /\
  skipn bs doc = body ++ rbrace :: rest /\
  slice doc bs (bs + length body) = body.
Proof.
  intros doc bs.
  assert (doc = (pre ++ h ++ [lbrace]) ++ body ++ rbrace :: rest) as E.
  { unfold doc. rewrite <- !app_assoc. reflexivity. }
  assert (bs = length (pre ++ h ++ [lbrace])) as Hbs.
  { unfold bs. rewrite !length_app. cbn. lia. }
  rewrite E, Hbs. unfold slice.
  rewrite firstn_exact, skipn_exact.
  replace (length (pre ++ h ++ [lbrace]) + length body
           - length (pre ++ h ++ [lbrace])) with (length body) by lia.
  rewrite firstn_exact. auto.
Qed.


(** ** The url pattern finds exactly the url properties *)

Lemma exec_WordBoundary re cs prev s pos :
  exec (WordBoundary :: re) cs prev s pos
  = if xorb (is_word_opt prev) (is_word_opt (hd_error s))
    then exec re cs prev s pos else None.
Proof. reflexivity. Qed.

Lemma exec_Star p re cs prev s pos :
  exec (Star p :: re) cs prev s pos = star p (exec re cs) prev s pos.
Proof. reflexivity. Qed.

Lemma rejects_eq cs : rejects is_space (exec [Char "="%char] cs).
Proof.
  apply rejects_Char. intros c Hc.
  destruct c as [[] [] [] [] [] [] [] []]; vm_compute in *; congruence.
Qed.

Lemma exec_url_sound cs prev s pos r :
  exec urlRegex cs prev s pos = Some r ->
  is_word_opt prev = false /\
  exists ws b, s = str "url" ++ ws ++ "="%char :: b /\ all is_space ws.
Proof.
  unfold urlRegex. rewrite exec_WordBoundary.
  destruct (xorb (is_word_opt prev) (is_word_opt (hd_error s))) eqn:Hx;
    [|discriminate].
  intros H.
  apply exec_Char_inv in H. destruct H as (t1 & -> & H).
  apply exec_Char_inv in H. destruct H as (t2 & -> & H).
  apply exec_Char_inv in H. destruct H as (t3 & -> & H).
  rewrite exec_Star in H. apply star_sound in H.
  destruct H as (ws & rest & -> & Hws & H).
  apply exec_Char_inv in H. destruct H as (b & -> & _).
  split.
  - cbn in Hx. destruct (is_word_opt prev); [discriminate|reflexivity].
  - exists ws, b. auto.
Qed.

Lemma exec_url_complete cs prev ws b pos :
  is_word_opt prev = false -> all is_space ws ->
  exec urlRegex cs prev (str "url" ++ ws ++ "="%char :: b) pos
  = Some (pos + 3 + length ws + 1, cs).
Proof.
  intros Hp Hws. unfold urlRegex. rewrite exec_WordBoundary, Hp.
  cbn [str list_ascii_of_string app hd_error is_word_opt].
  change (xorb false (is_word "u")) with true. cbv iota.
  rewrite !exec_Char, exec_Star.
  rewrite star_greedy; [ | assumption | reflexivity | apply rejects_eq ].
  rewrite exec_Char. cbn [exec prev_after]. f_equal. f_equal. lia.
Qed.

Lemma prev_boundary a :
  is_word_opt (prev_after None a) = false <->
  (forall a' c, a = a' ++ [c] -> is_word c = false).
Proof.
  induction a as [|c a' _] using rev_ind.
  - split; [|reflexivity]. intros _ a' c E.
    exfalso. exact (app_cons_not_nil _ _ _ E).
  - rewrite prev_after_snoc. cbn [is_word_opt]. split.
    + intros Hc a'' c' E. apply app_inj_tail in E. destruct E as [_ <-]. exact Hc.
    + intros H. exact (H a' c eq_refl).
Qed.

Lemma MatchString_url body :
  MatchString urlRegex body = true <-> has_url_property body.
Proof.
  unfold MatchString. split.
  - destruct (search urlRegex None body 0) as [r|] eqn:Hs; [|discriminate].
    intros _. apply search_inv in Hs.
    destruct Hs as (i & e & cs & Hi & Hex & _ & _).
    apply exec_url_sound in Hex. destruct Hex as (Hp & ws & b & E & Hws).
    exists (firstn i body), ws, b. repeat split.
    + rewrite <- E. symmetry. apply firstn_skipn.
    + exact Hws.
    + apply prev_boundary. exact Hp.
  - intros (a & ws & b & -> & Hws & Hp).
    destruct (search urlRegex None _ 0) as [r|] eqn:Hs; [reflexivity|].
    exfalso.
    assert (length a <= length (a ++ str "url" ++ ws ++ "="%char :: b)) as Hi
      by (rewrite length_app; lia).
    pose proof (search_none _ _ _ _ Hs Hi) as Hn.
    rewrite firstn_exact, skipn_exact in Hn.
    rewrite exec_url_complete in Hn; [discriminate| |exact Hws].
    apply prev_boundary. exact Hp.
Qed.


(** ** Aligning two readings of one text *)

Lemma first_occurrence {A} (x : A) a t' u t :
  a ++ x :: t' = u ++ x :: t -> ~ In x a ->
  (u = a /\ t' = t) \/ exists e, u = a ++ x :: e /\ t' = e ++ x :: t.
Proof.
  revert u. induction a as [|c a IH]; intros u E Hx.
  - destruct u as [|y u]; cbn in E.
    + left. split; congruence.
    + right. injection E as <- ->. exists u. auto.
  - destruct u as [|y u]; cbn in E.
    + exfalso. apply Hx. left. congruence.
    + injection E as <- E. apply IH in E.
      * destruct E as [[-> ->]|(e & -> & ->)].
        -- left. split; reflexivity.
        -- right. exists e. split; reflexivity.
      * intros Hin. apply Hx. right. exact Hin.
Qed.

Lemma prefix_split {A} (a b c d : list A) :
  a ++ b = c ++ d -> length a <= length c ->
  exists m, c = a ++ m /\ b = m ++ d.
Proof.
  revert c. induction a as [|x a IH]; intros c E Hl.
  - exists c. auto.
  - destruct c as [|y c]; [cbn in Hl; lia|].
    cbn in E. injection E as <- E. apply IH in E; [|cbn in Hl; lia].
    destruct E as (m & -> & ->). exists m. auto.
Qed.

Lemma all_not_In p (l : gostring) x : all p l -> p x = false -> ~ In x l.
Proof. intros Hall Hx Hin. rewrite (@all_In _ _ _ Hall Hin) in Hx. discriminate. Qed.

Lemma split_first_rbrace (l : gostring) :
  all not_rbrace l \/
  exists l1 l2, l = l1 ++ rbrace :: l2 /\ all not_rbrace l1.
Proof.
  induction l as [|c l IH].
  - left. reflexivity.
  - destruct (Ascii.eqb_spec c rbrace) as [->|Hc].
    + right. exists [], l. split; reflexivity.
    + destruct IH as [Hall|(l1 & l2 & -> & Hall)].
      * left. apply all_cons. split; [|exact Hall]. now apply not_rbrace_spec.
      * right. exists (c :: l1), l2. split; [reflexivity|].
        apply all_cons. split; [|exact Hall]. now apply not_rbrace_spec.
Qed.

Lemma keyword_no_lbrace : ~ In lbrace keyword.
Proof.
  intros H. repeat (destruct H as [H|H]; [discriminate H|]). exact H.
Qed.

Lemma header_no_lbrace h : is_header h -> ~ In lbrace h.
Proof.
  intros (ws1 & id & ws2 & -> & _ & Ha1 & _ & Ha2 & _ & Ha3) Hin.
  repeat (apply in_app_or in Hin; destruct Hin as [Hin|Hin]).
  - exact (keyword_no_lbrace Hin).
  - pose proof (space_not_lbrace _ (@all_In _ _ _ Ha1 Hin)) as E.
    rewrite Ascii.eqb_refl in E. discriminate.
  - pose proof (word_not_lbrace _ (@all_In _ _ _ Ha2 Hin)) as E.
    rewrite Ascii.eqb_refl in E. discriminate.
  - pose proof (space_not_lbrace _ (@all_In _ _ _ Ha3 Hin)) as E.
    rewrite Ascii.eqb_refl in E. discriminate.
Qed.

(** Text without a closing brace spliced in at the start of the body of the
    first block leaves that block the first one. *)
Lemma first_block_spliced ins pre h body rest :
  is_header h -> body <> [] -> all not_rbrace body -> all not_rbrace ins ->
  (forall j bs' be', j < length pre ->
     ~ block_at (pre ++ h ++ lbrace :: body ++ rbrace :: rest) j bs' be') ->
  first_block (pre ++ h ++ lbrace :: (ins ++ body) ++ rbrace :: rest)
    (length pre) (length pre + length h + 1)
    (length pre + length h + 1 + length (ins ++ body)).
Proof.
  intros Hh Hn Hb Hins Hmin. split.
  - exists pre, h, (ins ++ body), rest. repeat split; auto.
    + destruct ins; [exact Hn|discriminate].
    + apply all_app. auto.
  - intros j bs' be' Hj (pre' & h' & body' & rest' & E & Hh' & Hn' & Hb' & -> & _).
    assert (exists bs be,
              block_at (pre ++ h ++ lbrace :: body ++ rbrace :: rest)
                (length pre') bs be) as (bs & be & Hblk);
      [|exact (Hmin _ _ _ Hj Hblk)].
    symmetry in E. apply prefix_split in E; [|lia].
    destruct E as (m & -> & E).
    assert (h' ++ lbrace :: body' ++ rbrace :: rest'
            = (m ++ h) ++ lbrace :: (ins ++ body) ++ rbrace :: rest) as E'
      by (rewrite E, <- !app_assoc; reflexivity).
    apply first_occurrence in E'; [|exact (header_no_lbrace Hh')].
    destruct E' as [[Emh Eb]|(e & Emh & Eb)].
    + (* the same brace: the header read at [j] ends where [h] ends *)
      exists (length pre' + length h' + 1),
             (length pre' + length h' + 1 + length body).
      exists pre', h', body, rest. subst h'.
      split; [now rewrite <- !app_assoc|]. repeat split; auto.
    + (* an earlier brace: the body read at [j] begins inside [m ++ h] *)
      assert ((pre' ++ m) ++ h ++ lbrace :: body ++ rbrace :: rest
              = pre' ++ h' ++ lbrace :: e ++ lbrace :: body ++ rbrace :: rest)
        as Edoc.
      { rewrite <- (app_assoc pre'), (app_assoc m), Emh, <- !app_assoc.
        reflexivity. }
      rewrite Edoc.
      destruct (split_first_rbrace e) as [He|(e1 & e2 & -> & He1)].
      * exists (length pre' + length h' + 1),
               (length pre' + length h' + 1 + length (e ++ lbrace :: body)).
        exists pre', h', (e ++ lbrace :: body), rest.
        split; [now rewrite <- !app_assoc|]. repeat split; auto.
        -- destruct e; discriminate.
        -- apply all_app. split; [exact He|]. apply all_cons. auto.
      * rewrite <- app_assoc in Eb. cbn [app] in Eb.
        apply first_occurrence in Eb;
          [|apply all_not_In with (p := not_rbrace); [exact Hb'|reflexivity]].
        assert (body' = e1) as ->.
        { destruct Eb as [[<- _]|(e' & -> & _)]; [reflexivity|].
          exfalso. apply all_app in He1. destruct He1 as [_ He1].
          apply all_cons in He1. destruct He1 as [He1 _]. discriminate He1. }
        exists (length pre' + length h' + 1),
               (length pre' + length h' + 1 + length e1).
        exists pre', h', e1, (e2 ++ lbrace :: body ++ rbrace :: rest).
        split; [now rewrite <- !app_assoc|]. repeat split; auto.
Qed.


(** ** The decision *)

Lemma no_url_by_search body :
  MatchString urlRegex body = false -> ~ has_url_property body.
Proof. intros H Hu. apply MatchString_url in Hu. congruence. Qed.

Lemma injected_has_url body : has_url_property (injected ++ body).
Proof.
  exists (nl :: str "  "), (str " "),
         (str " env(" ++ dquote :: str "DB_URL" ++ dquote :: str ")" ++ body).
  split; [reflexivity|]. split; [reflexivity|].
  intros a' c E. change (nl :: str "  ") with ([nl; " "%char] ++ [" "%char]) in E.
  apply app_inj_tail in E. destruct E as [_ <-]. reflexivity.
Qed.

Lemma injected_no_rbrace : all not_rbrace injected.
Proof. reflexivity. Qed.

Lemma header_db : is_header (str "datasource db ").
Proof.
  exists (str " "), (str "db"), (str " ").
  repeat split; try discriminate; reflexivity.
Qed.

Lemma Evaluate_url_present pre h body rest :
  is_header h -> body <> [] -> all not_rbrace body ->
  (forall j bs' be', j < length pre ->
     ~ block_at (pre ++ h ++ lbrace :: body ++ rbrace :: rest) j bs' be') ->
  has_url_property body ->
  Evaluate (pre ++ h ++ lbrace :: body ++ rbrace :: rest) = Unchanged.
Proof.
  intros Hh Hn Hb Hmin Hu.
  rewrite (@Evaluate_first_block _ (length pre) (length pre + length h + 1)
             (length pre + length h + 1 + length body)).
  - destruct (block_at_parts pre h body rest) as (_ & _ & ->).
    apply MatchString_url in Hu. rewrite Hu. reflexivity.
  - split; [|exact Hmin]. exists pre, h, body, rest. repeat split; auto.
Qed.

Lemma Evaluate_url_absent pre h body rest :
  is_header h -> body <> [] -> all not_rbrace body ->
  (forall j bs' be', j < length pre ->
     ~ block_at (pre ++ h ++ lbrace :: body ++ rbrace :: rest) j bs' be') ->
  ~ has_url_property body ->
  Evaluate (pre ++ h ++ lbrace :: body ++ rbrace :: rest)
  = Patched (pre ++ h ++ lbrace :: (injected ++ body) ++ rbrace :: rest).
Proof.
  intros Hh Hn Hb Hmin Hu.
  rewrite (@Evaluate_first_block _ (length pre) (length pre + length h + 1)
             (length pre + length h + 1 + length body)).
  - destruct (block_at_parts pre h body rest) as (-> & -> & ->).
    destruct (MatchString urlRegex body) eqn:Hm.
    + exfalso. apply Hu. apply MatchString_url. exact Hm.
    + rewrite <- !app_assoc. reflexivity.
  - split; [|exact Hmin]. exists pre, h, body, rest. repeat split; auto.
Qed.


(** ** Strings and argument lists *)

Lemma streq_spec a b : reflect (a = b) (streq a b).
Proof.
  revert b. induction a as [|x a IH]; intros [|y b]; cbn;
    try (constructor; congruence).
  destruct (Ascii.eqb_spec x y) as [->|Hxy]; cbn.
  - destruct (IH b); constructor; congruence.
  - constructor. congruence.
Qed.

Lemma streq_refl a : streq a a = true.
Proof. destruct (streq_spec a a); congruence. Qed.

Lemma HasPrefix_app p s : HasPrefix (p ++ s) p = true.
Proof. induction p as [|c p IH]; cbn; [reflexivity|]. now rewrite Ascii.eqb_refl. Qed.

Lemma nth_at {A} (a : list A) x b d : nth (length a) (a ++ x :: b) d = x.
Proof. induction a; cbn; auto. Qed.

Lemma set_nth_at {A} (a : list A) x y b :
  set_nth (length a) y (a ++ x :: b) = a ++ y :: b.
Proof. induction a; cbn; congruence. Qed.

Lemma rewrite_from_skip tmp p : forall pre rest,
  Forall (fun a => is_flag_token a = false) p ->
  rewrite_from (pre ++ p ++ rest) tmp (length pre) (length p + length rest)
  = rewrite_from (pre ++ p ++ rest) tmp (length pre + length p) (length rest).
Proof.
  induction p as [|x p IH]; intros pre rest Hp.
  - cbn. rewrite Nat.add_0_r. reflexivity.
  - inversion Hp as [|? ? Hx Hp']; subst.
    unfold is_flag_token in Hx. apply orb_false_iff in Hx. destruct Hx as [Hx1 Hx2].
    cbn [length Nat.add rewrite_from app]. rewrite nth_at, Hx1, Hx2.
    cbn [andb].
    replace (pre ++ x :: p ++ rest) with ((pre ++ [x]) ++ p ++ rest)
      by (rewrite <- app_assoc; reflexivity).
    replace (S (length pre)) with (length (pre ++ [x]))
      by (rewrite length_app; cbn; lia).
    rewrite (IH _ _ Hp'). rewrite length_app. cbn [length].
    f_equal. lia.
Qed.

Lemma rewrite_from_split_flag tmp pre v post :
  rewrite_from (pre ++ flag_schema :: v :: post) tmp (length pre)
    (S (S (length post)))
  = (pre ++ flag_schema :: tmp :: post, true).
Proof.
  cbn [rewrite_from]. rewrite nth_at, streq_refl.
  assert ((length pre + 1 <? length (pre ++ flag_schema :: v :: post)) = true) as ->.
  { apply Nat.ltb_lt. rewrite length_app. cbn. lia. }
  cbn [andb]. f_equal.
  replace (pre ++ flag_schema :: v :: post)
    with ((pre ++ [flag_schema]) ++ v :: post)
    by (rewrite <- app_assoc; reflexivity).
  replace (length pre + 1) with (length (pre ++ [flag_schema]))
    by (rewrite length_app; reflexivity).
  rewrite set_nth_at, <- app_assoc. reflexivity.
Qed.

Lemma rewrite_from_joined_flag tmp pre v post :
  rewrite_from (pre ++ (flag_schema_eq ++ v) :: post) tmp (length pre)
    (S (length post))
  = (pre ++ (flag_schema_eq ++ tmp) :: post, true).
Proof.
  cbn [rewrite_from]. rewrite nth_at.
  assert (streq (flag_schema_eq ++ v) flag_schema = false) as ->.
  { destruct (streq_spec (flag_schema_eq ++ v) flag_schema) as [E|]; [|reflexivity].
    exfalso. apply (f_equal (fun l => nth 8 l "x"%char)) in E. discriminate E. }
  cbn [andb]. rewrite HasPrefix_app, set_nth_at. reflexivity.
Qed.

Lemma rewrite_from_none tmp rest : forall pre,
  no_schema_flag (pre ++ rest) ->
  rewrite_from (pre ++ rest) tmp (length pre) (length rest)
  = (pre ++ rest, false).
Proof.
  induction rest as [|x rest IH]; intros pre Hno; [reflexivity|].
  destruct (Hno pre x rest eq_refl) as [Hx1 Hx2].
  cbn [length rewrite_from]. rewrite nth_at, Hx1.
  assert (streq x flag_schema && (length pre + 1 <? length (pre ++ x :: rest))
          = false) as ->.
  { destruct (streq_spec x flag_schema) as [E|]; [|reflexivity].
    rewrite (Hx2 E). cbn [andb]. apply Nat.ltb_ge.
    rewrite length_app. cbn. lia. }
  replace (pre ++ x :: rest) with ((pre ++ [x]) ++ rest) in *
    by (rewrite <- app_assoc; reflexivity).
  replace (S (length pre)) with (length (pre ++ [x]))
    by (rewrite length_app; cbn; lia).
  apply IH. exact Hno.
Qed.

Lemma rewriteArgs_split tmp pre v post :
  Forall (fun a => is_flag_token a = false) pre ->
  rewriteArgs (pre ++ flag_schema :: v :: post) tmp
  = pre ++ flag_schema :: tmp :: post.
Proof.
  intros Hp. unfold rewriteArgs.
  pose proof (@rewrite_from_skip tmp pre [] (flag_schema :: v :: post) Hp) as E.
  cbn [app length Nat.add] in E. rewrite length_app. cbn [length].
  rewrite E, rewrite_from_split_flag. reflexivity.
Qed.

Lemma rewriteArgs_joined tmp pre v post :
  Forall (fun a => is_flag_token a = false) pre ->
  rewriteArgs (pre ++ (flag_schema_eq ++ v) :: post) tmp
  = pre ++ (flag_schema_eq ++ tmp) :: post.
Proof.
  intros Hp. unfold rewriteArgs.
  pose proof (@rewrite_from_skip tmp pre [] ((flag_schema_eq ++ v) :: post) Hp) as E.
  cbn [app length Nat.add] in E. rewrite length_app. cbn [length].
  rewrite E, rewrite_from_joined_flag. reflexivity.
Qed.

Lemma rewriteArgs_append tmp args :
  no_schema_flag args -> rewriteArgs args tmp = args ++ [flag_schema; tmp].
Proof.
  intros Hno. unfold rewriteArgs.
  pose proof (@rewrite_from_none tmp args [] Hno) as E.
  cbn [app length] in E. rewrite E. reflexivity.
Qed.


(** ** The file system and the shim *)

Lemma put_same fs p f : put fs p f p = Some f.
Proof. unfold put. now rewrite streq_refl. Qed.

Lemma put_other fs p f q : q <> p -> put fs p f q = fs q.
Proof. unfold put. destruct (streq_spec q p); congruence. Qed.

Lemma Remove_same fs p : Remove fs p p = None.
Proof. unfold Remove. now rewrite streq_refl. Qed.

Lemma Remove_other fs p q : q <> p -> Remove fs p q = fs q.
Proof. unfold Remove. destruct (streq_spec q p); congruence. Qed.

(** What the shim leaves behind: without a disposer the file system is
    as before; with one, the only change is the temporary file, which is
    new. *)
Lemma shim_effect o fs args :
  let '(fs', (newArgs, cleanup, err)) := shimSchemaCompatibility o fs args in
  match cleanup with
  | None => newArgs = args /\ forall q, fs' q = fs q
  | Some d =>
      exists tmp content patched,
        d = RemoveFile tmp /\ err = None /\
        CreateTemp_pick o = Some tmp /\
        newArgs = rewriteArgs args tmp /\
        ReadFile fs (locate fs args) = Some content /\
        Evaluate content = Patched patched /\
        fs tmp = None /\ fs' tmp = Some (Contents patched) /\
        forall q, q <> tmp -> fs' q = fs q
  end.
Proof.
  unfold shimSchemaCompatibility.
  destruct (streq (locate fs args) []); [now split|].
  destruct (ReadFile fs (locate fs args)) as [content|] eqn:Hr; [|now split].
  destruct (Evaluate content) as [|patched] eqn:He; [now split|].
  unfold CreateTemp.
  destruct (CreateTemp_pick o) as [tmp|] eqn:Hp; [|now split].
  destruct (fs tmp) eqn:Hfresh; [now split|].
  unfold WriteString. destruct (WriteString_fails o) as [n|].
  - (* the write failed *)
    split; [reflexivity|]. intros q.
    destruct (streq_spec q tmp) as [->|Hq].
    + rewrite Remove_same. congruence.
    + rewrite Remove_other, !put_other by exact Hq. reflexivity.
  - (* the file is materialized *)
    exists tmp, content, patched. repeat split; auto.
    + apply put_same.
    + intros q Hq. rewrite !put_other by exact Hq. reflexivity.
Qed.

(** The shim's three results without a temporary file. *)
Lemma shim_noop o fs args :
  match ReadFile fs (locate fs args) with
  | None => True
  | Some content => Evaluate content = Unchanged
  end ->
  shimSchemaCompatibility o fs args = (fs, (args, None, None)).
Proof.
  unfold shimSchemaCompatibility. intros H.
  destruct (streq (locate fs args) []); [reflexivity|].
  destruct (ReadFile fs (locate fs args)) as [content|]; [|reflexivity].
  rewrite H. reflexivity.
Qed.


Lemma HasPrefix_spec s p : HasPrefix s p = true <-> exists t, s = p ++ t.
Proof.
  revert s. induction p as [|c p IH]; intros s; cbn.
  - split; [eauto|reflexivity].
  - destruct s as [|x s]; [split; [discriminate|intros [t E]; discriminate]|].
    rewrite andb_true_iff, IH. split.
    + intros [Hx [t ->]]. apply Ascii.eqb_eq in Hx. subst. eauto.
    + intros [t E]. injection E as -> ->. split; [apply Ascii.eqb_refl|eauto].
Qed.

(** Every argument list has a first schema flag of one of the two forms,
    or none. *)
Lemma schema_flag_cases args :
  (exists pre v post, args = pre ++ flag_schema :: v :: post /\
     Forall (fun a => is_flag_token a = false) pre) \/
  (exists pre v post, args = pre ++ (flag_schema_eq ++ v) :: post /\
     Forall (fun a => is_flag_token a = false) pre) \/
  no_schema_flag args.
Proof.
  induction args as [|a args IH].
  - right. right. intros [|x pre] y post E; discriminate.
  - destruct (HasPrefix a flag_schema_eq) eqn:Hp.
    { apply HasPrefix_spec in Hp. destruct Hp as [v ->].
      right. left. exists [], v, args. split; [reflexivity|constructor]. }
    destruct (streq_spec a flag_schema) as [->|Ha].
    { destruct args as [|v post].
      - right. right. intros [|x pre] y post E.
        + injection E as <- <-. split; [reflexivity|reflexivity].
        + destruct pre; discriminate.
      - left. exists [], v, post. split; [reflexivity|constructor]. }
    assert (is_flag_token a = false) as Hna.
    { unfold is_flag_token. rewrite Hp.
      destruct (streq_spec a flag_schema); [contradiction|reflexivity]. }
    destruct IH as [(pre & v & post & -> & Hpre)|[(pre & v & post & -> & Hpre)|Hno]].
    + left. exists (a :: pre), v, post. split; [reflexivity|now constructor].
    + right. left. exists (a :: pre), v, post.
      split; [reflexivity|now constructor].
    + right. right. intros [|x pre] y post E.
      * injection E as <- <-. split; [exact Hp|contradiction].
      * injection E as <- E. exact (Hno _ _ _ E).
Qed.

(** ** The environment *)

Lemma build_env_closed h dir bn :
  build_env h dir bn
  = Environ h
    ++ [str "PRISMA_HIDE_UPDATE_MESSAGE=true";
        str "PRISMA_CLI_QUERY_ENGINE_TYPE=binary"]
    ++ map (engine_entry h dir bn) (Engines h).
Proof.
  unfold build_env.
  assert (forall es acc,
            fold_left (fun env engine => env ++ [engine_entry h dir bn engine])
              es acc
            = acc ++ map (engine_entry h dir bn) es) as Hfold.
  { induction es as [|e es IH]; intros acc; cbn.
    - now rewrite app_nil_r.
    - rewrite IH, <- app_assoc. reflexivity. }
  rewrite Hfold, <- !app_assoc. reflexivity.
Qed.

Lemma effective_app key a b :
  effective key (a ++ b)
  = match effective key b with
    | Some v => Some v
    | None => effective key a
    end.
Proof.
  induction a as [|e a IH]; cbn.
  - destruct (effective key b); reflexivity.
  - rewrite IH. destruct (effective key b); reflexivity.
Qed.

Lemma key_of_entry k k' v :
  ~ In "="%char k -> ~ In "="%char k' ->
  HasPrefix (k' ++ str "=" ++ v) (k ++ str "=") = true -> k = k'.
Proof.
  intros Hk Hk' H. apply HasPrefix_spec in H. destruct H as [t E].
  rewrite <- app_assoc in E. cbn [str list_ascii_of_string app] in E.
  apply first_occurrence in E; [|exact Hk'].
  destruct E as [[E _]|(e & E & _)]; [exact E|].
  exfalso. apply Hk. rewrite E. apply in_or_app. right. left. reflexivity.
Qed.

Lemma effective_none h dir bn es k :
  ~ In k (map Env es) -> ~ In "="%char k ->
  (forall e', In e' es -> ~ In "="%char (Env e')) ->
  effective k (map (engine_entry h dir bn) es) = None.
Proof.
  induction es as [|e1 es IH]; intros Hnot Hk Hkeys; [reflexivity|].
  cbn [map effective]. rewrite IH.
  - destruct (HasPrefix (engine_entry h dir bn e1) (k ++ str "=")) eqn:Hp;
      [|reflexivity].
    exfalso. apply Hnot. left. symmetry.
    apply (@key_of_entry k (Env e1) (engine_value h dir bn e1)).
    + exact Hk.
    + apply Hkeys. now left.
    + exact Hp.
  - intros Hin. apply Hnot. now right.
  - exact Hk.
  - intros e' He'. apply Hkeys. now right.
Qed.

Lemma effective_engines h dir bn es e :
  In e es -> NoDup (map Env es) ->
  (forall e', In e' es -> ~ In "="%char (Env e')) ->
  effective (Env e) (map (engine_entry h dir bn) es)
  = Some (engine_value h dir bn e).
Proof.
  induction es as [|e0 es IH]; intros Hin Hnd Hkeys; [contradiction|].
  cbn [map effective]. inversion Hnd as [|? ? Hnot Hnd']; subst.
  assert (forall e', In e' es -> ~ In "="%char (Env e')) as Hkeys'
    by (intros e' He'; apply Hkeys; now right).
  destruct Hin as [->|Hin].
  - rewrite effective_none; [|exact Hnot|apply Hkeys; now left|exact Hkeys'].
    unfold engine_entry.
    replace (Env e ++ str "=" ++ engine_value h dir bn e)
      with ((Env e ++ str "=") ++ engine_value h dir bn e)
      by (rewrite <- app_assoc; reflexivity).
    rewrite HasPrefix_app.
    replace (length (Env e) + 1) with (length (Env e ++ str "="))
      by (rewrite length_app; reflexivity).
    rewrite skipn_exact. reflexivity.
  - rewrite (IH Hin Hnd' Hkeys'). reflexivity.
Qed.

(** C1: on the bytes [datasource db {\n  provider = "postgresql"\n}\n]
    the shim's decision is a patch whose document is
    [datasource db {\n  url = env("DB_URL")\n  provider = "postgresql"\n}\n]:
    the group of the pattern starts at offset 15, right after the
    opening brace at offset 14, and the url line is spliced in there. *)
Theorem Evaluate_postgres :
  Evaluate doc_postgres = Patched doc_postgres_patched /\
  FindStringSubmatchIndex datasourceRegex doc_postgres = [0; 43; 15; 42]%Z /\
  nth_error doc_postgres 14 = Some lbrace /\
  doc_postgres_patched
  = firstn 15 doc_postgres ++ injected ++ skipn 15 doc_postgres.
Proof. repeat split; vm_compute; reflexivity. Qed.

(** C2, as the code has it: when the first block of the document, the
    leftmost text made of the keyword, blanks, an identifier, blanks, an
    opening brace, a body of at least one byte without a closing brace and
    a closing brace, has no url property in its body, the decision is a
    patch: the injected text sits between the opening brace and the body,
    the document grows by the length of the injected text, 22 bytes, and
    the bytes before and after the insertion point are those of the
    original, in order. *)
Theorem Evaluate_patches_first_block pre h body rest :
  let doc := pre ++ h ++ lbrace :: body ++ rbrace :: rest in
  let patched := pre ++ h ++ lbrace :: (injected ++ body) ++ rbrace :: rest in
  let bs := length pre + length h + 1 in
  is_header h -> body <> [] -> all not_rbrace body ->
  (forall j bs' be', j < length pre -> ~ block_at doc j bs' be') ->
  ~ has_url_property body ->
  Evaluate doc = Patched patched /\
  patched = firstn bs doc ++ injected ++ skipn bs doc /\
  length patched = length doc + length injected /\
  length injected = 22 /\
  firstn bs patched = firstn bs doc /\
  skipn (bs + length injected) patched = skipn bs doc.
Proof.
  intros doc patched bs Hh Hn Hb Hmin Hu.
  destruct (block_at_parts pre h body rest) as (E1 & E2 & _).
  fold doc bs in E1, E2.
  assert (patched = firstn bs doc ++ injected ++ skipn bs doc) as Ep.
  { rewrite E1, E2. unfold patched. rewrite <- !app_assoc. reflexivity. }
  split; [exact (@Evaluate_url_absent _ _ _ _ Hh Hn Hb Hmin Hu)|].
  split; [exact Ep|].
  assert (length (firstn bs doc) = bs) as Hl.
  { rewrite E1, !length_app. cbn. unfold bs. lia. }
  split.
  { unfold patched, doc. rewrite !length_app. cbn [length].
    rewrite !length_app. cbn [length]. lia. }
  split; [reflexivity|]. rewrite Ep. split.
  - rewrite <- Hl at 1. apply firstn_exact.
  - rewrite app_assoc.
    replace (bs + length injected)
      with (length (firstn bs doc ++ injected)) by (rewrite length_app; lia).
    apply skipn_exact.
Qed.

Lemma Evaluate_patches_first_block_witness :
  Evaluate doc_postgres = Patched doc_postgres_patched /\
  length doc_postgres_patched = length doc_postgres + 22.
Proof.
  destruct (@Evaluate_patches_first_block []
              (str "datasource db ")
              (nl :: str "  provider = " ++ dquote :: str "postgresql"
                  ++ [dquote; nl])
              [nl]) as (E & _ & L & _).
  - exact header_db.
  - discriminate.
  - reflexivity.
  - intros j bs' be' Hj. cbn in Hj. lia.
  - apply no_url_by_search. vm_compute. reflexivity.
  - split; [exact E|exact L].
Defined.

(** C2, as stated, fails: a document whose second block lacks the url
    property while its first block has one is left unchanged, and so is a
    document whose block has an empty body. *)
Lemma Evaluate_leaves_later_and_empty_blocks :
  (contains_block_without_url doc_two_blocks /\
   Evaluate doc_two_blocks = Unchanged) /\
  (contains_block_without_url doc_empty_block /\
   Evaluate doc_empty_block = Unchanged).
Proof.
  split; split.
  - exists (str "datasource a { url = 1 } "), (str "datasource b "),
           (str " provider = 2 "), [].
    split; [reflexivity|]. split; [|split; [reflexivity|]].
    + exists (str " "), (str "b"), (str " ").
      repeat split; try discriminate; reflexivity.
    + apply no_url_by_search. vm_compute. reflexivity.
  - vm_compute. reflexivity.
  - exists [], (str "datasource db "), [], [].
    split; [reflexivity|]. split; [exact header_db|]. split; [reflexivity|].
    apply no_url_by_search. vm_compute. reflexivity.
  - vm_compute. reflexivity.
Qed.

(** C3: a patched document is never patched again: whenever the decision
    on a document is a patch, the decision on the patched document is
    "unchanged". *)
Theorem Evaluate_idempotent doc patched :
  Evaluate doc = Patched patched -> Evaluate patched = Unchanged.
Proof.
  intros H.
  destruct (find_datasource_cases doc) as [[_ Hno]|(i & bs & be & Hf & _)].
  - rewrite (@Evaluate_no_block _ Hno) in H. discriminate.
  - rewrite (Evaluate_first_block Hf) in H.
    destruct (MatchString urlRegex (slice doc bs be)); [discriminate|].
    assert (patched = firstn bs doc ++ injected ++ skipn bs doc) as ->
      by congruence.
    clear H.
    destruct Hf as [(pre & h & body & rest & -> & Hh & Hn & Hb & -> & -> & ->) Hmin].
    destruct (block_at_parts pre h body rest) as (-> & -> & _).
    replace ((pre ++ h ++ [lbrace]) ++ injected ++ body ++ rbrace :: rest)
      with (pre ++ h ++ lbrace :: (injected ++ body) ++ rbrace :: rest)
      by (rewrite <- !app_assoc; reflexivity).
    pose proof (@first_block_spliced _ _ _ _ _ Hh Hn Hb injected_no_rbrace Hmin) as Hf'.
    rewrite (Evaluate_first_block Hf').
    destruct (block_at_parts pre h (injected ++ body) rest) as (_ & _ & ->).
    pose proof (injected_has_url body) as Hu.
    apply MatchString_url in Hu. rewrite Hu. reflexivity.
Qed.

Lemma Evaluate_idempotent_witness :
  Evaluate doc_postgres_patched = Unchanged.
Proof.
  apply (@Evaluate_idempotent doc_postgres). vm_compute. reflexivity.
Defined.

(** C10: the url check does not look at context: whenever the body of the
    first block holds [url], blanks and [=] after a byte that is not a
    word byte, the decision is "unchanged", and so it is in particular
    when that text sits in a comment that starts with two slashes. *)
Theorem Evaluate_url_in_comment pre h body rest :
  let doc := pre ++ h ++ lbrace :: body ++ rbrace :: rest in
  is_header h -> body <> [] -> all not_rbrace body ->
  (forall j bs' be', j < length pre -> ~ block_at doc j bs' be') ->
  (has_url_property body -> Evaluate doc = Unchanged) /\
  (forall a sp ws b,
     body = a ++ str "//" ++ sp ++ str "url" ++ ws ++ "="%char :: b ->
     all is_space sp -> all is_space ws -> Evaluate doc = Unchanged).
Proof.
  intros doc Hh Hn Hb Hmin. split.
  - exact (@Evaluate_url_present _ _ _ _ Hh Hn Hb Hmin).
  - intros a sp ws b E Hsp Hws.
    apply (@Evaluate_url_present _ _ _ _ Hh Hn Hb Hmin).
    exists (a ++ str "//" ++ sp), ws, b. split; [|split; [exact Hws|]].
    + rewrite E, <- !app_assoc. reflexivity.
    + intros a' c Ea.
      destruct sp as [|x sp _] using rev_ind.
      * rewrite app_nil_r in Ea.
        change (str "//") with (["/"%char] ++ ["/"%char]) in Ea.
        rewrite app_assoc in Ea. apply app_inj_tail in Ea.
        destruct Ea as [_ <-]. reflexivity.
      * rewrite !app_assoc in Ea. apply app_inj_tail in Ea.
        destruct Ea as [_ <-]. apply all_app in Hsp. destruct Hsp as [_ Hx].
        apply all_cons in Hx. apply space_not_word. tauto.
Qed.

Lemma Evaluate_url_in_comment_witness :
  Evaluate doc_commented_url = Unchanged.
Proof.
  destruct (@Evaluate_url_in_comment []
              (str "datasource db ")
              (nl :: str "  // url = env(" ++ dquote :: str "X" ++ dquote ::
                 str ")" ++ nl :: str "  provider = " ++ dquote ::
                 str "postgresql" ++ [dquote; nl])
              [nl]) as [_ H].
  - exact header_db.
  - discriminate.
  - reflexivity.
  - intros j bs' be' Hj. cbn in Hj. lia.
  - apply (H (nl :: str "  ") (str " ") (str " ")
             (str " env(" ++ dquote :: str "X" ++ dquote :: str ")" ++ nl ::
                str "  provider = " ++ dquote :: str "postgresql"
                ++ [dquote; nl])); reflexivity.
Defined.

Example myurl_is_not_url :
  MatchString urlRegex (str " myurl = 1 ") = false /\
  MatchString urlRegex (str " url = 1 ") = true.
Proof. split; vm_compute; reflexivity. Qed.

Example findSchemaPath_forms :
  findSchemaPath demo_args = str "a.prisma" /\
  findSchemaPath [str "validate"; str "--schema"; str "b.prisma"]
  = str "b.prisma" /\
  findSchemaPath [str "validate"; str "--schema"] = [].
Proof. repeat split; reflexivity. Qed.

(** C4: when the body of the first block of the schema already holds
    [url], blanks and [=], with no word byte right before [url], the
    decision is "unchanged" and the shim returns the arguments it was
    given, no disposer and no error, and leaves the file system alone. *)
Theorem shim_keeps_args_when_url_present o fs args pre h body rest :
  let doc := pre ++ h ++ lbrace :: body ++ rbrace :: rest in
  ReadFile fs (locate fs args) = Some doc ->
  is_header h -> body <> [] -> all not_rbrace body ->
  (forall j bs' be', j < length pre -> ~ block_at doc j bs' be') ->
  has_url_property body ->
  Evaluate doc = Unchanged /\
  shimSchemaCompatibility o fs args = (fs, (args, None, None)).
Proof.
  intros doc Hr Hh Hn Hb Hmin Hu.
  assert (Evaluate doc = Unchanged) as He
    by exact (@Evaluate_url_present _ _ _ _ Hh Hn Hb Hmin Hu).
  split; [exact He|]. apply shim_noop. rewrite Hr. exact He.
Qed.

Lemma shim_keeps_args_when_url_present_witness :
  shimSchemaCompatibility (temp_oracle demo_host) fs_with_url
    [str "validate"; str "--schema"; str "b.prisma"]
  = (fs_with_url, ([str "validate"; str "--schema"; str "b.prisma"], None, None)).
Proof.
  apply (@shim_keeps_args_when_url_present (temp_oracle demo_host) fs_with_url
           [str "validate"; str "--schema"; str "b.prisma"]
           [] (str "datasource db ") (str " url=1 ") []).
  - reflexivity.
  - exact header_db.
  - discriminate.
  - reflexivity.
  - intros j bs' be' Hj. cbn in Hj. lia.
  - exists (str " "), [], (str "1 "). split; [reflexivity|].
    split; [reflexivity|].
    intros a' c E. change (str " ") with ([] ++ [" "%char]) in E.
    apply app_inj_tail in E. destruct E as [_ <-]. reflexivity.
Defined.

(** C5: when the shim has materialized the patch in the temporary file
    [tmp], the arguments it returns are the original ones with the value of
    the first schema flag replaced in place: the token after the first
    [--schema], or the text after [=] in the first [--schema=value] token,
    whichever flag comes first; without a schema flag the pair
    [--schema tmp] is appended. Every other token stays where it was, and
    every argument list is of one of these three forms. *)
Theorem shim_rewrites_schema_flag o fs args newArgs tmp err :
  snd (shimSchemaCompatibility o fs args)
  = (newArgs, Some (RemoveFile tmp), err) ->
  CreateTemp_pick o = Some tmp /\
  (forall pre v post,
     args = pre ++ flag_schema :: v :: post ->
     Forall (fun a => is_flag_token a = false) pre ->
     newArgs = pre ++ flag_schema :: tmp :: post) /\
  (forall pre v post,
     args = pre ++ (flag_schema_eq ++ v) :: post ->
     Forall (fun a => is_flag_token a = false) pre ->
     newArgs = pre ++ (flag_schema_eq ++ tmp) :: post) /\
  (no_schema_flag args -> newArgs = args ++ [flag_schema; tmp]) /\
  ((exists pre v post, args = pre ++ flag_schema :: v :: post /\
      Forall (fun a => is_flag_token a = false) pre) \/
   (exists pre v post, args = pre ++ (flag_schema_eq ++ v) :: post /\
      Forall (fun a => is_flag_token a = false) pre) \/
   no_schema_flag args).
Proof.
  intros H. pose proof (shim_effect o fs args) as E.
  destruct (shimSchemaCompatibility o fs args) as [fs' [[na cl] er]].
  cbn [snd] in H. injection H as -> -> ->.
  destruct E as (tmp' & content & patched & Ed & _ & Hp & -> & _).
  injection Ed as <-.
  split; [exact Hp|]. split; [|split; [|split]].
  - intros pre v post -> Hpre. apply rewriteArgs_split. exact Hpre.
  - intros pre v post -> Hpre. apply rewriteArgs_joined. exact Hpre.
  - apply rewriteArgs_append.
  - apply schema_flag_cases.
Qed.

Lemma shim_rewrites_schema_flag_witness :
  fst (fst (snd (shimSchemaCompatibility (temp_oracle demo_host) demo_fs
                   demo_args)))
  = [str "migrate"; str "dev"; str "--schema=/tmp/schema-1.prisma"].
Proof.
  destruct (@shim_rewrites_schema_flag (temp_oracle demo_host) demo_fs demo_args
              (fst (fst (snd (shimSchemaCompatibility (temp_oracle demo_host)
                                demo_fs demo_args))))
              demo_tmp None eq_refl) as (_ & _ & H & _).
  apply (H [str "migrate"; str "dev"] (str "a.prisma") []).
  - reflexivity.
  - repeat constructor.
Defined.

(** C6: the environment of the child is the ambient environment, then
    the two fixed entries, then one entry per engine in the order of the
    descriptors; an engine's value is the ambient value of its variable
    when that is not empty and otherwise the path joined from the cache
    directory, the version and [prisma-<name>-<binary suffix>]. The
    engine entries come after every passthrough entry, so for engines
    with distinct variable names without [=] the last entry for that
    name, the one that wins, is the engine's. *)
Theorem build_env_composition h dir bn :
  let env := build_env h dir bn in
  env = Environ h
        ++ [str "PRISMA_HIDE_UPDATE_MESSAGE=true";
            str "PRISMA_CLI_QUERY_ENGINE_TYPE=binary"]
        ++ map (engine_entry h dir bn) (Engines h) /\
  (forall e, Getenv h (Env e) <> [] ->
     engine_entry h dir bn e = Env e ++ str "=" ++ Getenv h (Env e)) /\
  (forall e, Getenv h (Env e) = [] ->
     engine_entry h dir bn e
     = Env e ++ str "="
       ++ path_Join h [dir; EngineVersion h;
                       str "prisma-" ++ Name e ++ str "-" ++ bn]) /\
  (forall i e, nth_error (Engines h) i = Some e ->
     nth_error env (length (Environ h) + 2 + i)
     = Some (engine_entry h dir bn e)) /\
  (forall e, In e (Engines h) -> NoDup (map Env (Engines h)) ->
     (forall e', In e' (Engines h) -> ~ In "="%char (Env e')) ->
     effective (Env e) env = Some (engine_value h dir bn e)) /\
  (forall args output,
     CmdEnv (command h args output)
     = build_env h (GlobalCacheDir h) (BinaryName h)).
Proof.
  intros env. unfold env. rewrite build_env_closed.
  split; [reflexivity|]. split; [|split; [|split; [|split]]].
  - intros e He. unfold engine_entry, engine_value.
    destruct (streq_spec (Getenv h (Env e)) []); [contradiction|reflexivity].
  - intros e He. unfold engine_entry, engine_value. rewrite He. reflexivity.
  - intros i e Hi.
    rewrite app_assoc, nth_error_app2 by (rewrite length_app; cbn; lia).
    rewrite length_app. cbn [length].
    replace (length (Environ h) + 2 + i - (length (Environ h) + 2)) with i
      by lia.
    apply map_nth_error. exact Hi.
  - intros e Hin Hnd Hkeys. rewrite app_assoc, effective_app.
    rewrite (@effective_engines h dir bn _ _ Hin Hnd Hkeys). reflexivity.
  - reflexivity.
Qed.

Lemma build_env_composition_witness :
  build_env demo_host (str "/cache") (str "linux")
  = [str "HOME=/root"; str "PRISMA_QUERY_ENGINE_BINARY=/custom/qe";
     str "PRISMA_HIDE_UPDATE_MESSAGE=true";
     str "PRISMA_CLI_QUERY_ENGINE_TYPE=binary";
     str "PRISMA_QUERY_ENGINE_BINARY=/custom/qe";
     str "PRISMA_MIGRATION_ENGINE_BINARY=/cache/v1/prisma-migration-engine-linux"]
  /\ effective (str "PRISMA_QUERY_ENGINE_BINARY")
       (build_env demo_host (str "/cache") (str "linux"))
     = Some (str "/custom/qe").
Proof.
  destruct (@build_env_composition demo_host (str "/cache") (str "linux"))
    as (E & _ & _ & _ & L & _).
  split; [exact E|].
  apply (L {| Name := str "query-engine";
              Env := str "PRISMA_QUERY_ENGINE_BINARY" |}).
  - left. reflexivity.
  - repeat constructor; cbn; intuition discriminate.
  - intros e' [<-|[<-|[]]]; cbn; intuition discriminate.
Defined.

(** C7: when the file at the located schema path cannot be read, the
    shim returns the arguments it was given, no disposer and no error,
    creates no file, and [Run] starts the child with the original
    arguments on the unchanged file system. *)
Theorem shim_unreadable_is_noop h args output fs fs1 :
  FetchNative h (GlobalCacheDir h) fs = (fs1, None) ->
  ReadFile fs1 (locate fs1 args) = None ->
  shimSchemaCompatibility (temp_oracle h) fs1 args = (fs1, (args, None, None)) /\
  spawned (Run h args output fs) = Some (command h args output) /\
  final_fs (Run h args output fs)
  = fst (cmd_Run h (command h args output) fs1).
Proof.
  intros Hf Hr.
  assert (shimSchemaCompatibility (temp_oracle h) fs1 args
          = (fs1, (args, None, None))) as Hs
    by (apply shim_noop; rewrite Hr; exact I).
  split; [exact Hs|]. unfold Run. rewrite Hf, Hs.
  destruct (cmd_Run h (command h args output) fs1) as [fs3 [e|]];
    split; reflexivity.
Qed.

Lemma shim_unreadable_is_noop_witness :
  spawned (Run demo_host [str "validate"; str "--schema=missing.prisma"]
             true demo_fs)
  = Some (command demo_host [str "validate"; str "--schema=missing.prisma"]
            true).
Proof.
  apply (@shim_unreadable_is_noop demo_host
           [str "validate"; str "--schema=missing.prisma"] true demo_fs demo_fs);
    reflexivity.
Defined.

(** C8: a temporary file that the shim has materialized is gone when
    [Run] returns, whether the child succeeds or fails. A failing write
    never yields a disposer, and whenever the shim returns no disposer,
    as it does when creating or writing the temporary file fails, the
    file system after the shim is the one before it: the partly written
    file has been removed, and [Run] returns the shim's error without
    leaving a file behind. *)
Theorem Run_disposes_temp h args output fs fs1 fs2 newArgs cleanup err :
  FetchNative h (GlobalCacheDir h) fs = (fs1, None) ->
  shimSchemaCompatibility (temp_oracle h) fs1 args
  = (fs2, (newArgs, cleanup, err)) ->
  (WriteString_fails (temp_oracle h) <> None -> cleanup = None) /\
  match cleanup with
  | Some d =>
      exists tmp patched,
        d = RemoveFile tmp /\ err = None /\
        fs1 tmp = None /\ fs2 tmp = Some (Contents patched) /\
        final_fs (Run h args output fs) tmp = None
  | None =>
      (forall q, fs2 q = fs1 q) /\
      (err <> None -> forall q, final_fs (Run h args output fs) q = fs1 q)
  end.
Proof.
  intros Hf Hs. split.
  - intros Hw. revert Hs. unfold shimSchemaCompatibility, CreateTemp, WriteString.
    destruct (streq (locate fs1 args) []); [congruence|].
    destruct (ReadFile fs1 (locate fs1 args)); [|congruence].
    destruct (Evaluate g); [congruence|].
    destruct (CreateTemp_pick (temp_oracle h)); [|congruence].
    destruct (fs1 g0); [congruence|].
    destruct (WriteString_fails (temp_oracle h)); congruence.
  - pose proof (shim_effect (temp_oracle h) fs1 args) as E. rewrite Hs in E.
    destruct cleanup as [d|].
    + destruct E as (tmp & content & patched & -> & -> & _ & _ & _ & _
                     & Hfresh & Hnew & _).
      exists tmp, patched. repeat split; auto.
      unfold Run. rewrite Hf, Hs.
      destruct (cmd_Run h (command h newArgs output) fs2) as [fs3 [e|]];
        cbn [final_fs run_deferred call]; apply Remove_same.
    + destruct E as [_ Hsame]. split; [exact Hsame|].
      intros He q. unfold Run. rewrite Hf, Hs.
      destruct err as [e|]; [|congruence]. cbn [final_fs]. apply Hsame.
Qed.

Lemma Run_disposes_temp_witness :
  fst (shimSchemaCompatibility (temp_oracle demo_host) demo_fs demo_args)
    demo_tmp = Some (Contents doc_postgres_patched) /\
  final_fs (Run demo_host demo_args true demo_fs) demo_tmp = None.
Proof.
  destruct (@Run_disposes_temp demo_host demo_args true demo_fs demo_fs
              (fst (shimSchemaCompatibility (temp_oracle demo_host) demo_fs
                      demo_args))
              [str "migrate"; str "dev"; str "--schema=/tmp/schema-1.prisma"]
              (Some (RemoveFile demo_tmp)) None eq_refl eq_refl)
    as (_ & tmp & patched & Ed & _ & _ & _ & H).
  injection Ed as <-. split; [reflexivity|exact H].
Defined.




(** * Further properties of [cli.go] *)

(** ** [findSchemaPath] and the rewritten arguments *)

Lemma findSchemaPath_from_skip p : forall pre rest,
  Forall (fun a => is_flag_token a = false) p ->
  findSchemaPath_from (pre ++ p ++ rest) (length pre) (length p + length rest)
  = findSchemaPath_from (pre ++ p ++ rest) (length pre + length p) (length rest).
Proof.
  induction p as [|x p IH]; intros pre rest Hp.
  - cbn. rewrite Nat.add_0_r. reflexivity.
  - inversion Hp as [|? ? Hx Hp']; subst.
    unfold is_flag_token in Hx. apply orb_false_iff in Hx. destruct Hx as [Hx1 Hx2].
    cbn [length Nat.add findSchemaPath_from app]. rewrite nth_at, Hx1, Hx2.
    cbn [andb].
    replace (pre ++ x :: p ++ rest) with ((pre ++ [x]) ++ p ++ rest)
      by (rewrite <- app_assoc; reflexivity).
    replace (S (length pre)) with (length (pre ++ [x]))
      by (rewrite length_app; cbn; lia).
    rewrite (IH _ _ Hp'). rewrite length_app. cbn [length].
    f_equal. lia.
Qed.

Lemma findSchemaPath_from_split_flag pre v post :
  findSchemaPath_from (pre ++ flag_schema :: v :: post) (length pre)
    (S (S (length post))) = v.
Proof.
  cbn [findSchemaPath_from]. rewrite nth_at, streq_refl.
  assert ((length pre + 1 <? length (pre ++ flag_schema :: v :: post)) = true)
    as ->.
  { apply Nat.ltb_lt. rewrite length_app. cbn. lia. }
  cbn [andb].
  replace (pre ++ flag_schema :: v :: post)
    with ((pre ++ [flag_schema]) ++ v :: post)
    by (rewrite <- app_assoc; reflexivity).
  replace (length pre + 1) with (length (pre ++ [flag_schema]))
    by (rewrite length_app; reflexivity).
  apply nth_at.
Qed.

Lemma joined_is_not_split v : streq (flag_schema_eq ++ v) flag_schema = false.
Proof.
  destruct (streq_spec (flag_schema_eq ++ v) flag_schema) as [E|]; [|reflexivity].
  exfalso. apply (f_equal (fun l => nth 8 l "x"%char)) in E. discriminate E.
Qed.

Lemma findSchemaPath_from_joined_flag pre v post :
  findSchemaPath_from (pre ++ (flag_schema_eq ++ v) :: post) (length pre)
    (S (length post)) = v.
Proof.
  cbn [findSchemaPath_from]. rewrite nth_at, joined_is_not_split.
  cbn [andb]. rewrite HasPrefix_app. unfold TrimPrefix.
  rewrite HasPrefix_app. apply skipn_exact.
Qed.

Lemma findSchemaPath_from_none rest : forall pre,
  no_schema_flag (pre ++ rest) ->
  findSchemaPath_from (pre ++ rest) (length pre) (length rest) = [].
Proof.
  induction rest as [|x rest IH]; intros pre Hno; [reflexivity|].
  destruct (Hno pre x rest eq_refl) as [Hx1 Hx2].
  cbn [length findSchemaPath_from]. rewrite nth_at, Hx1.
  assert (streq x flag_schema && (length pre + 1 <? length (pre ++ x :: rest))
          = false) as ->.
  { destruct (streq_spec x flag_schema) as [E|]; [|reflexivity].
    rewrite (Hx2 E). cbn [andb]. apply Nat.ltb_ge.
    rewrite length_app. cbn. lia. }
  replace (pre ++ x :: rest) with ((pre ++ [x]) ++ rest) in *
    by (rewrite <- app_assoc; reflexivity).
  replace (S (length pre)) with (length (pre ++ [x]))
    by (rewrite length_app; cbn; lia).
  apply IH. exact Hno.
Qed.

Lemma findSchemaPath_split pre v post :
  Forall (fun a => is_flag_token a = false) pre ->
  findSchemaPath (pre ++ flag_schema :: v :: post) = v.
Proof.
  intros Hp. unfold findSchemaPath.
  pose proof (@findSchemaPath_from_skip pre [] (flag_schema :: v :: post) Hp) as E.
  cbn [app length Nat.add] in E. rewrite length_app. cbn [length].
  rewrite E. apply findSchemaPath_from_split_flag.
Qed.

Lemma findSchemaPath_joined pre v post :
  Forall (fun a => is_flag_token a = false) pre ->
  findSchemaPath (pre ++ (flag_schema_eq ++ v) :: post) = v.
Proof.
  intros Hp. unfold findSchemaPath.
  pose proof (@findSchemaPath_from_skip pre [] ((flag_schema_eq ++ v) :: post) Hp)
    as E.
  cbn [app length Nat.add] in E. rewrite length_app. cbn [length].
  rewrite E. apply findSchemaPath_from_joined_flag.
Qed.

Lemma findSchemaPath_none args :
  no_schema_flag args -> findSchemaPath args = [].
Proof.
  intros Hno. exact (@findSchemaPath_from_none args [] Hno).
Qed.

Lemma no_schema_flag_tail a args :
  no_schema_flag (a :: args) -> no_schema_flag args.
Proof. intros H pre x post E. apply (H (a :: pre) x post). now rewrite E. Qed.

(** Without a flag and without a last token [--schema], no token is a
    flag token. *)
Lemma no_flag_tokens args :
  no_schema_flag args -> last args [] <> flag_schema ->
  Forall (fun a => is_flag_token a = false) args.
Proof.
  induction args as [|a args IH]; intros Hno Hlast; [constructor|].
  destruct (Hno [] a args eq_refl) as [Hp Hs]. constructor.
  - unfold is_flag_token. rewrite Hp.
    destruct (streq_spec a flag_schema) as [E|]; [|reflexivity].
    exfalso. rewrite (Hs E) in Hlast. exact (Hlast E).
  - apply IH; [exact (no_schema_flag_tail Hno)|].
    destruct args as [|b args]; [discriminate|exact Hlast].
Qed.

(** Without a flag, the tokens before a last token [--schema] are no flag
    tokens. *)
Lemma no_flag_tokens_before_last args :
  no_schema_flag (args ++ [flag_schema]) ->
  Forall (fun a => is_flag_token a = false) args.
Proof.
  induction args as [|a args IH]; intros Hno; [constructor|].
  destruct (Hno [] a (args ++ [flag_schema]) eq_refl) as [Hp Hs]. constructor.
  - unfold is_flag_token. rewrite Hp.
    destruct (streq_spec a flag_schema) as [E|]; [|reflexivity].
    exfalso. destruct args; discriminate (Hs E).
  - apply IH. exact (no_schema_flag_tail Hno).
Qed.

Lemma last_is args (x : gostring) :
  args <> [] -> last args [] = x -> exists args', args = args' ++ [x].
Proof.
  intros Hne Hl. destruct (exists_last Hne) as (args' & y & ->).
  rewrite last_last in Hl. subst. eauto.
Qed.

(** X1: [findSchemaPath] returns the value of the first schema flag: the
    token after the first [--schema] that has a token after it, or the
    text after [=] of the first token that starts with [--schema=],
    whichever comes first; without such a flag, in particular when the
    only [--schema] is the last token, it returns the empty string. *)
Theorem findSchemaPath_first_flag args :
  (forall pre v post,
     args = pre ++ flag_schema :: v :: post ->
     Forall (fun a => is_flag_token a = false) pre ->
     findSchemaPath args = v) /\
  (forall pre v post,
     args = pre ++ (flag_schema_eq ++ v) :: post ->
     Forall (fun a => is_flag_token a = false) pre ->
     findSchemaPath args = v) /\
  (no_schema_flag args -> findSchemaPath args = []) /\
  (forall pre, args = pre ++ [flag_schema] ->
     Forall (fun a => is_flag_token a = false) pre ->
     findSchemaPath args = []).
Proof.
  split; [|split; [|split]].
  - intros pre v post -> Hp. exact (findSchemaPath_split v post Hp).
  - intros pre v post -> Hp. exact (findSchemaPath_joined v post Hp).
  - exact (@findSchemaPath_none args).
  - intros pre -> Hp. unfold findSchemaPath.
    pose proof (@findSchemaPath_from_skip pre [] [flag_schema] Hp) as E.
    cbn [app length Nat.add] in E. rewrite length_app. cbn [length].
    rewrite E. cbn [findSchemaPath_from]. rewrite nth_at, streq_refl.
    replace (length pre + 1 <? length (pre ++ [flag_schema])) with false;
      [reflexivity|].
    symmetry. apply Nat.ltb_ge. rewrite length_app. cbn. lia.
Qed.

Lemma findSchemaPath_first_flag_witness :
  findSchemaPath [str "db"; str "push"; str "--schema"; str "x.prisma";
                  str "--schema=y.prisma"] = str "x.prisma".
Proof.
  destruct (findSchemaPath_first_flag
              [str "db"; str "push"; str "--schema"; str "x.prisma";
               str "--schema=y.prisma"]) as [H _].
  apply (H [str "db"; str "push"] (str "x.prisma") [str "--schema=y.prisma"]).
  - reflexivity.
  - repeat constructor.
Defined.

(** X2: a schema flag with a non-empty value decides the schema path
    whatever the file system holds: no default location is looked at and
    the named file need not exist. Without a flag value, which includes a
    flag whose value is empty, the path is [./schema.prisma] when that
    exists, else [./prisma/schema.prisma] when that exists, else empty. *)
Theorem locate_precedence fs args :
  (forall pre v post,
     args = pre ++ flag_schema :: v :: post ->
     Forall (fun a => is_flag_token a = false) pre ->
     v <> [] -> locate fs args = v) /\
  (forall pre v post,
     args = pre ++ (flag_schema_eq ++ v) :: post ->
     Forall (fun a => is_flag_token a = false) pre ->
     v <> [] -> locate fs args = v) /\
  ((no_schema_flag args \/
    (exists pre post, args = pre ++ flag_schema :: [] :: post /\
       Forall (fun a => is_flag_token a = false) pre) \/
    (exists pre post, args = pre ++ flag_schema_eq :: post /\
       Forall (fun a => is_flag_token a = false) pre)) ->
   locate fs args =
   match fs (str "./schema.prisma"), fs (str "./prisma/schema.prisma") with
   | Some _, _ => str "./schema.prisma"
   | None, Some _ => str "./prisma/schema.prisma"
   | None, None => []
   end).
Proof.
  split; [|split].
  - intros pre v post -> Hp Hv. unfold locate.
    rewrite (findSchemaPath_split v post Hp).
    destruct (streq_spec v []); [contradiction|reflexivity].
  - intros pre v post -> Hp Hv. unfold locate.
    assert (findSchemaPath (pre ++ (flag_schema_eq ++ v) :: post) = v) as ->
      by exact (findSchemaPath_joined v post Hp).
    destruct (streq_spec v []); [contradiction|reflexivity].
  - intros H.
    assert (findSchemaPath args = []) as E.
    { destruct H as [Hno|[(pre & post & -> & Hp)|(pre & post & -> & Hp)]].
      - exact (findSchemaPath_none Hno).
      - exact (findSchemaPath_split [] post Hp).
      - rewrite <- (app_nil_r flag_schema_eq).
        exact (findSchemaPath_joined [] post Hp). }
    unfold locate. rewrite E. cbn [streq first_existing defaultPaths].
    unfold Stat_ok.
    destruct (fs (str "./schema.prisma")); [reflexivity|].
    destruct (fs (str "./prisma/schema.prisma")); reflexivity.
Qed.

Lemma locate_precedence_witness :
  locate demo_fs [str "validate"; str "--schema=missing.prisma"]
  = str "missing.prisma" /\
  locate (put demo_fs (str "./prisma/schema.prisma") Unreadable)
    [str "validate"; str "--schema="]
  = str "./prisma/schema.prisma".
Proof.
  split.
  - destruct (locate_precedence demo_fs
                [str "validate"; str "--schema=missing.prisma"]) as (_ & H & _).
    apply (H [str "validate"] (str "missing.prisma") []).
    + reflexivity.
    + repeat constructor.
    + discriminate.
  - destruct (locate_precedence
                (put demo_fs (str "./prisma/schema.prisma") Unreadable)
                [str "validate"; str "--schema="]) as (_ & _ & H).
    apply H. right. right. exists [str "validate"], [].
    split; [reflexivity|repeat constructor].
Defined.

(** X3: the rewritten arguments name the temporary file: reading the
    schema path back from the arguments that the rewriting loop returns
    gives the new path, in all three forms of the arguments, unless the
    original arguments have no schema flag and end in a lone [--schema]:
    then the appended pair follows that token, and the path read back is
    the text [--schema]. *)
Theorem findSchemaPath_after_rewrite args tmp :
  ((no_schema_flag args -> last args [] <> flag_schema) ->
   findSchemaPath (rewriteArgs args tmp) = tmp) /\
  (no_schema_flag args -> last args [] = flag_schema ->
   findSchemaPath (rewriteArgs args tmp) = flag_schema).
Proof.
  split.
  - intros Hlast.
    destruct (schema_flag_cases args)
      as [(pre & v & post & -> & Hp)|[(pre & v & post & -> & Hp)|Hno]].
    + rewrite (rewriteArgs_split tmp v post Hp).
      exact (findSchemaPath_split tmp post Hp).
    + assert (rewriteArgs (pre ++ (flag_schema_eq ++ v) :: post) tmp
              = pre ++ (flag_schema_eq ++ tmp) :: post) as ->
        by exact (rewriteArgs_joined tmp v post Hp).
      exact (findSchemaPath_joined tmp post Hp).
    + rewrite (rewriteArgs_append tmp Hno).
      exact (findSchemaPath_split tmp [] (no_flag_tokens Hno (Hlast Hno))).
  - intros Hno Hlast. rewrite (rewriteArgs_append tmp Hno).
    assert (args <> []) as Hne by (intros ->; discriminate Hlast).
    destruct (last_is Hne Hlast) as [args' ->].
    rewrite <- app_assoc. cbn [app].
    exact (findSchemaPath_split flag_schema [tmp]
             (@no_flag_tokens_before_last _ Hno)).
Qed.

Lemma findSchemaPath_after_rewrite_witness :
  findSchemaPath (rewriteArgs demo_args demo_tmp) = demo_tmp /\
  findSchemaPath (rewriteArgs [str "validate"; str "--schema"] demo_tmp)
  = str "--schema".
Proof.
  split.
  - apply (proj1 (findSchemaPath_after_rewrite demo_args demo_tmp)).
    intros Hno. exfalso.
    destruct (Hno [str "migrate"; str "dev"] (str "--schema=a.prisma") []
                eq_refl) as [H _].
    discriminate H.
  - apply (proj2 (findSchemaPath_after_rewrite
                    [str "validate"; str "--schema"] demo_tmp)).
    + intros [|x [|y [|z pre]]] a post E; try discriminate E.
      * injection E as <- <-. split; [reflexivity|discriminate].
      * injection E as <- <- <-. split; [reflexivity|reflexivity].
    + reflexivity.
Defined.

(** ** The two patterns and the decision *)

Lemma nth_error_at {A} (a : list A) x b :
  nth_error (a ++ x :: b) (length a) = Some x.
Proof. induction a; cbn; auto. Qed.

Lemma header_length h : is_header h -> 13 <= length h.
Proof.
  intros (ws1 & id & ws2 & -> & Hn1 & _ & Hn2 & _ & Hn3 & _).
  rewrite !length_app, keyword_length.
  destruct ws1; [congruence|]. destruct id; [congruence|].
  destruct ws2; [congruence|]. cbn [length]. lia.
Qed.

(** X4: [FindStringSubmatchIndex] of the datasource pattern returns nil
    exactly when the document holds no block, and otherwise the four
    offsets of the first block: its start, the offset after its closing
    brace, and the bounds of its body. The offsets are in range and in
    order, the byte before the body is the opening brace and the byte at
    the end of the body is the closing brace, so the slices of lines 123
    and 137 are within the document. *)
Theorem datasourceRegex_finds_first_block doc :
  (FindStringSubmatchIndex datasourceRegex doc = [] /\
   forall i bs be, ~ block_at doc i bs be) \/
  (exists i bs be,
     first_block doc i bs be /\
     FindStringSubmatchIndex datasourceRegex doc
     = [Z.of_nat i; Z.of_nat (be + 1); Z.of_nat bs; Z.of_nat be] /\
     i + 14 <= bs /\ bs < be /\ be < length doc /\
     nth_error doc (bs - 1) = Some lbrace /\
     nth_error doc be = Some rbrace /\
     all not_rbrace (slice doc bs be)).
Proof.
  destruct (find_datasource_cases doc) as [H|(i & bs & be & Hf & E)];
    [left; exact H|right].
  exists i, bs, be. split; [exact Hf|]. split; [exact E|].
  destruct Hf as [(pre & h & body & rest & -> & Hh & Hn & Hb & -> & -> & ->) _].
  pose proof (header_length Hh) as Hl.
  destruct (block_at_parts pre h body rest) as (_ & _ & ->).
  assert (0 < length body) as Hlb by (destruct body; [congruence|cbn; lia]).
  split; [lia|]. split; [lia|]. split.
  { rewrite !length_app. cbn [length]. rewrite length_app. cbn [length]. lia. }
  split; [|split; [|exact Hb]].
  - replace (length pre + length h + 1 - 1) with (length (pre ++ h))
      by (rewrite length_app; lia).
    rewrite app_assoc. apply nth_error_at.
  - replace (length pre + length h + 1 + length body)
      with (length (pre ++ h ++ lbrace :: body))
      by (rewrite !length_app; cbn [length]; lia).
    replace (pre ++ h ++ lbrace :: body ++ rbrace :: rest)
      with ((pre ++ h ++ lbrace :: body) ++ rbrace :: rest)
      by (rewrite <- !app_assoc; reflexivity).
    apply nth_error_at.
Qed.

(** X5: [MatchString] of the url pattern is true exactly on the texts
    that hold [url], then any number of blanks, tabs or line breaks, then
    [=], where [url] starts the text or follows a byte that is no letter,
    digit or underscore. *)
Theorem urlRegex_matches_url_property body :
  (MatchString urlRegex body = true <-> has_url_property body) /\
  (MatchString urlRegex body = false <-> ~ has_url_property body).
Proof.
  pose proof (MatchString_url body) as H. split; [exact H|].
  destruct (MatchString urlRegex body); split; intros H1.
  - discriminate.
  - exfalso. apply H1. apply H. reflexivity.
  - intros Hu. apply H in Hu. discriminate.
  - reflexivity.
Qed.

(** X6: the decision is "unchanged" exactly when the document holds no
    block at all or the body of its first block holds the url property;
    in every other case it is a patch. *)
Theorem Evaluate_unchanged_iff doc :
  Evaluate doc = Unchanged <->
  (forall i bs be, ~ block_at doc i bs be) \/
  (exists i bs be,
     first_block doc i bs be /\ has_url_property (slice doc bs be)).
Proof.
  split.
  - intros H.
    destruct (find_datasource_cases doc) as [[_ Hno]|(i & bs & be & Hf & _)];
      [left; exact Hno|right].
    exists i, bs, be. split; [exact Hf|].
    rewrite (Evaluate_first_block Hf) in H. apply MatchString_url.
    destruct (MatchString urlRegex (slice doc bs be));
      [reflexivity|discriminate].
  - intros [Hno|(i & bs & be & Hf & Hu)].
    + exact (@Evaluate_no_block _ Hno).
    + rewrite (Evaluate_first_block Hf). apply MatchString_url in Hu.
      rewrite Hu. reflexivity.
Qed.

(** X7: whenever the decision is a patch, the patched document is the
    original with the 22 injected bytes inserted right after the opening
    brace of the first block and nothing else changed: the body of that
    block had no url property, removing the inserted bytes gives the
    original back, and in the patched document the same block is still
    the first, with the injected text in front of its old body. *)
Theorem Evaluate_patched_inv doc patched :
  Evaluate doc = Patched patched ->
  exists i bs be,
    first_block doc i bs be /\
    ~ has_url_property (slice doc bs be) /\
    patched = firstn bs doc ++ injected ++ skipn bs doc /\
    length patched = length doc + 22 /\
    firstn bs patched ++ skipn (bs + 22) patched = doc /\
    nth_error patched (bs - 1) = Some lbrace /\
    first_block patched i bs (be + 22) /\
    slice patched bs (be + 22) = injected ++ slice doc bs be.
Proof.
  intros H.
  destruct (find_datasource_cases doc) as [[_ Hno]|(i & bs & be & Hf & _)].
  { rewrite (@Evaluate_no_block _ Hno) in H. discriminate. }
  rewrite (Evaluate_first_block Hf) in H.
  destruct (MatchString urlRegex (slice doc bs be)) eqn:Hm; [discriminate|].
  assert (patched = firstn bs doc ++ injected ++ skipn bs doc) as ->
    by congruence.
  clear H. exists i, bs, be. split; [exact Hf|].
  split; [apply no_url_by_search; exact Hm|]. split; [reflexivity|].
  destruct Hf as [(pre & h & body & rest & -> & Hh & Hn & Hb & -> & -> & ->) Hmin].
  destruct (block_at_parts pre h body rest) as (-> & -> & ->).
  set (bs := length pre + length h + 1).
  assert (length (pre ++ h ++ [lbrace]) = bs) as Hl
    by (unfold bs; rewrite !length_app; cbn; lia).
  assert (length injected = 22) as Hi by reflexivity.
  split.
  { rewrite !length_app. cbn [length]. rewrite !length_app. cbn [length]. lia. }
  split.
  { assert (pre ++ h ++ lbrace :: body ++ rbrace :: rest
            = (pre ++ h ++ [lbrace]) ++ body ++ rbrace :: rest) as ->
      by (rewrite <- !app_assoc; reflexivity).
    remember (pre ++ h ++ [lbrace]) as X eqn:EX.
    rewrite <- Hl at 1. rewrite firstn_exact.
    replace (bs + 22) with (length (X ++ injected))
      by (rewrite length_app; lia).
    rewrite (app_assoc X injected), skipn_exact. reflexivity. }
  split.
  { replace (bs - 1) with (length (pre ++ h))
      by (unfold bs; rewrite length_app; lia).
    assert ((pre ++ h ++ [lbrace]) ++ injected ++ body ++ rbrace :: rest
            = (pre ++ h) ++ lbrace :: injected ++ body ++ rbrace :: rest) as ->
      by (rewrite <- !app_assoc; reflexivity).
    apply nth_error_at. }
  replace ((pre ++ h ++ [lbrace]) ++ injected ++ body ++ rbrace :: rest)
    with (pre ++ h ++ lbrace :: (injected ++ body) ++ rbrace :: rest)
    by (rewrite <- !app_assoc; reflexivity).
  replace (bs + length body + 22) with (bs + length (injected ++ body))
    by (rewrite length_app; lia).
  split.
  - exact (@first_block_spliced _ _ _ _ _ Hh Hn Hb injected_no_rbrace Hmin).
  - destruct (block_at_parts pre h (injected ++ body) rest) as (_ & _ & E).
    exact E.
Qed.

Lemma Evaluate_patched_inv_witness :
  exists i bs be,
    first_block doc_postgres i bs be /\
    length doc_postgres_patched = length doc_postgres + 22 /\
    first_block doc_postgres_patched i bs (be + 22).
Proof.
  destruct (@Evaluate_patched_inv doc_postgres doc_postgres_patched)
    as (i & bs & be & Hf & _ & _ & Hl & _ & _ & Hf' & _).
  - vm_compute. reflexivity.
  - exists i, bs, be. auto.
Defined.

(** The first block stays the first when the text after its closing
    brace is replaced, and when text without a closing brace is put in
    front of its body. *)
Lemma first_block_stable ins pre h body rest rest' :
  is_header h -> body <> [] -> all not_rbrace body -> all not_rbrace ins ->
  (forall j bs' be', j < length pre ->
     ~ block_at (pre ++ h ++ lbrace :: body ++ rbrace :: rest) j bs' be') ->
  first_block (pre ++ h ++ lbrace :: (ins ++ body) ++ rbrace :: rest')
    (length pre) (length pre + length h + 1)
    (length pre + length h + 1 + length (ins ++ body)).
Proof.
  intros Hh Hn Hb Hins Hmin. split.
  - exists pre, h, (ins ++ body), rest'. repeat split; auto.
    + destruct ins; [exact Hn|discriminate].
    + apply all_app. auto.
  - intros j bs' be' Hj (pre' & h' & body' & rest'' & E & Hh' & Hn' & Hb' & -> & _).
    assert (exists bs be,
              block_at (pre ++ h ++ lbrace :: body ++ rbrace :: rest)
                (length pre') bs be) as (bs & be & Hblk);
      [|exact (Hmin _ _ _ Hj Hblk)].
    symmetry in E. apply prefix_split in E; [|lia].
    destruct E as (m & -> & E).
    assert (h' ++ lbrace :: body' ++ rbrace :: rest''
            = (m ++ h) ++ lbrace :: (ins ++ body) ++ rbrace :: rest') as E'
      by (rewrite E, <- !app_assoc; reflexivity).
    apply first_occurrence in E'; [|exact (header_no_lbrace Hh')].
    destruct E' as [[Emh Eb]|(e & Emh & Eb)].
    + exists (length pre' + length h' + 1),
             (length pre' + length h' + 1 + length body).
      exists pre', h', body, rest. subst h'.
      split; [now rewrite <- !app_assoc|]. repeat split; auto.
    + assert ((pre' ++ m) ++ h ++ lbrace :: body ++ rbrace :: rest
              = pre' ++ h' ++ lbrace :: e ++ lbrace :: body ++ rbrace :: rest)
        as Edoc.
      { rewrite <- (app_assoc pre'), (app_assoc m), Emh, <- !app_assoc.
        reflexivity. }
      rewrite Edoc.
      destruct (split_first_rbrace e) as [He|(e1 & e2 & -> & He1)].
      * exists (length pre' + length h' + 1),
               (length pre' + length h' + 1 + length (e ++ lbrace :: body)).
        exists pre', h', (e ++ lbrace :: body), rest.
        split; [now rewrite <- !app_assoc|]. repeat split; auto.
        -- destruct e; discriminate.
        -- apply all_app. split; [exact He|]. apply all_cons. auto.
      * rewrite <- app_assoc in Eb. cbn [app] in Eb.
        apply first_occurrence in Eb;
          [|apply all_not_In with (p := not_rbrace); [exact Hb'|reflexivity]].
        assert (body' = e1) as ->.
        { destruct Eb as [[<- _]|(e' & -> & _)]; [reflexivity|].
          exfalso. apply all_app in He1. destruct He1 as [_ He1].
          apply all_cons in He1. destruct He1 as [He1 _]. discriminate He1. }
        exists (length pre' + length h' + 1),
               (length pre' + length h' + 1 + length e1).
        exists pre', h', e1, (e2 ++ lbrace :: body ++ rbrace :: rest).
        split; [now rewrite <- !app_assoc|]. repeat split; auto.
Qed.

(** X8: the text after the closing brace of the first block never
    influences the decision and is carried over as it is: two documents
    that agree up to that brace are both left unchanged, or both patched
    with the same text up to that brace. Later blocks are not looked
    at. *)
Theorem Evaluate_ignores_text_after_block pre h body rest rest' :
  let doc := pre ++ h ++ lbrace :: body ++ rbrace :: rest in
  let doc' := pre ++ h ++ lbrace :: body ++ rbrace :: rest' in
  is_header h -> body <> [] -> all not_rbrace body ->
  (forall j bs' be', j < length pre -> ~ block_at doc j bs' be') ->
  (Evaluate doc = Unchanged -> Evaluate doc' = Unchanged) /\
  (forall patched, Evaluate doc = Patched patched ->
     exists P, patched = P ++ rest /\ Evaluate doc' = Patched (P ++ rest')).
Proof.
  intros doc doc' Hh Hn Hb Hmin.
  pose proof (@first_block_stable [] _ _ _ _ rest' Hh Hn Hb eq_refl Hmin) as Hf'.
  pose proof (@first_block_stable [] _ _ _ _ rest Hh Hn Hb eq_refl Hmin) as Hf.
  cbn [app] in Hf, Hf'. fold doc in Hf. fold doc' in Hf'.
  rewrite (Evaluate_first_block Hf), (Evaluate_first_block Hf').
  destruct (block_at_parts pre h body rest) as (E1 & E2 & E3).
  destruct (block_at_parts pre h body rest') as (E1' & E2' & E3').
  fold doc in E1, E2, E3. fold doc' in E1', E2', E3'.
  rewrite E1, E2, E3, E1', E2', E3'.
  destruct (MatchString urlRegex body).
  - split; [reflexivity|]. intros patched H. discriminate H.
  - split; [intros H; discriminate H|]. intros patched H.
    exists ((pre ++ h ++ [lbrace]) ++ injected ++ body ++ [rbrace]).
    split.
    + injection H as <-. rewrite <- !app_assoc. reflexivity.
    + rewrite <- !app_assoc. reflexivity.
Qed.

Lemma Evaluate_ignores_text_after_block_witness :
  Evaluate (str "datasource db { url = 1 }" ++
            str " datasource b { provider = 2 }")
  = Unchanged.
Proof.
  destruct (@Evaluate_ignores_text_after_block []
              (str "datasource db ") (str " url = 1 ") []
              (str " datasource b { provider = 2 }")) as [H _].
  - exact header_db.
  - discriminate.
  - reflexivity.
  - intros j bs' be' Hj. cbn in Hj. lia.
  - apply H. vm_compute. reflexivity.
Defined.

(** ** The shim and the runner, end to end *)

Lemma Evaluate_of_patched doc patched :
  Evaluate doc = Patched patched -> Evaluate patched = Unchanged.
Proof.
  intros H.
  destruct (find_datasource_cases doc) as [[_ Hno]|(i & bs & be & Hf & _)].
  { rewrite (@Evaluate_no_block _ Hno) in H. discriminate. }
  rewrite (Evaluate_first_block Hf) in H.
  destruct (MatchString urlRegex (slice doc bs be)); [discriminate|].
  assert (patched = firstn bs doc ++ injected ++ skipn bs doc) as ->
    by congruence.
  clear H.
  destruct Hf as [(pre & h & body & rest & -> & Hh & Hn & Hb & -> & -> & ->) Hmin].
  destruct (block_at_parts pre h body rest) as (-> & -> & _).
  replace ((pre ++ h ++ [lbrace]) ++ injected ++ body ++ rbrace :: rest)
    with (pre ++ h ++ lbrace :: (injected ++ body) ++ rbrace :: rest)
    by (rewrite <- !app_assoc; reflexivity).
  rewrite (Evaluate_first_block
             (@first_block_stable _ _ _ _ _ rest Hh Hn Hb injected_no_rbrace Hmin)).
  destruct (block_at_parts pre h (injected ++ body) rest) as (_ & _ & ->).
  pose proof (injected_has_url body) as Hu.
  apply MatchString_url in Hu. rewrite Hu. reflexivity.
Qed.

(** The shim when the schema needs the patch and the temporary file can
    be created and written. *)
Lemma shim_materializes o fs args content patched tmp :
  locate fs args <> [] ->
  ReadFile fs (locate fs args) = Some content ->
  Evaluate content = Patched patched ->
  CreateTemp_pick o = Some tmp -> fs tmp = None ->
  WriteString_fails o = None ->
  shimSchemaCompatibility o fs args
  = (put (put fs tmp (Contents [])) tmp (Contents patched),
     (rewriteArgs args tmp, Some (RemoveFile tmp), None)).
Proof.
  intros Hl Hr He Hp Hfresh Hw.
  unfold shimSchemaCompatibility, CreateTemp, WriteString.
  destruct (streq_spec (locate fs args) []); [contradiction|].
  rewrite Hr, He, Hp, Hfresh, Hw. reflexivity.
Qed.

(** X9: when the located schema needs the patch and the temporary file
    can be created and written, [Run] starts the child once, with the
    rewritten arguments, on a file system in which the temporary file
    holds the patched schema, a document that itself needs no patch, and
    the original schema file holds its old bytes. When the child fails,
    the error carries the rewritten arguments; the temporary file is
    removed from whatever file system the child leaves. *)
Theorem Run_patches_schema h args output fs fs1 content patched tmp :
  FetchNative h (GlobalCacheDir h) fs = (fs1, None) ->
  locate fs1 args <> [] ->
  ReadFile fs1 (locate fs1 args) = Some content ->
  Evaluate content = Patched patched ->
  CreateTemp_pick (temp_oracle h) = Some tmp -> fs1 tmp = None ->
  WriteString_fails (temp_oracle h) = None ->
  let fs2 := put (put fs1 tmp (Contents [])) tmp (Contents patched) in
  let cmd := command h (rewriteArgs args tmp) output in
  spawned (Run h args output fs) = Some cmd /\
  ReadFile fs2 tmp = Some patched /\
  Evaluate patched = Unchanged /\
  ReadFile fs2 (locate fs1 args) = Some content /\
  final_fs (Run h args output fs) = Remove (fst (cmd_Run h cmd fs2)) tmp /\
  returned (Run h args output fs)
  = match snd (cmd_Run h cmd fs2) with
    | Some err =>
        Some (Wrapped (str "could not run") (rewriteArgs args tmp) err)
    | None => None
    end.
Proof.
  intros Hf Hl Hr He Hp Hfresh Hw fs2 cmd.
  pose proof (@shim_materializes _ _ _ _ _ _ Hl Hr He Hp Hfresh Hw) as Hs.
  fold fs2 in Hs.
  assert (locate fs1 args <> tmp) as Hne.
  { intros E. unfold ReadFile in Hr. rewrite E, Hfresh in Hr. discriminate. }
  assert (spawned (Run h args output fs) = Some cmd /\
          final_fs (Run h args output fs) = Remove (fst (cmd_Run h cmd fs2)) tmp /\
          returned (Run h args output fs)
          = match snd (cmd_Run h cmd fs2) with
            | Some err =>
                Some (Wrapped (str "could not run") (rewriteArgs args tmp) err)
            | None => None
            end) as (H1 & H2 & H3).
  { unfold Run. rewrite Hf, Hs. fold cmd.
    destruct (cmd_Run h cmd fs2) as [fs3 [e|]]; repeat split. }
  split; [exact H1|]. split.
  { unfold ReadFile, fs2. rewrite put_same. reflexivity. }
  split; [exact (@Evaluate_of_patched _ _ He)|]. split.
  { unfold ReadFile, fs2. rewrite !put_other by exact Hne. exact Hr. }
  split; [exact H2|exact H3].
Qed.

Lemma Run_patches_schema_witness :
  spawned (Run demo_host demo_args true demo_fs)
  = Some (command demo_host
            [str "migrate"; str "dev"; str "--schema=/tmp/schema-1.prisma"]
            true) /\
  returned (Run demo_host demo_args true demo_fs)
  = Some (Wrapped (str "could not run")
            [str "migrate"; str "dev"; str "--schema=/tmp/schema-1.prisma"]
            (OSError (str "exit status 1"))).
Proof.
  destruct (@Run_patches_schema demo_host demo_args true demo_fs demo_fs
              doc_postgres doc_postgres_patched demo_tmp)
    as (H1 & _ & _ & _ & _ & H2).
  - reflexivity.
  - discriminate.
  - reflexivity.
  - vm_compute. reflexivity.
  - reflexivity.
  - reflexivity.
  - reflexivity.
  - split; [exact H1|exact H2].
Defined.

(** X10: when the located schema needs the patch and the temporary file
    cannot be created, or the write to it fails, [Run] does not start the
    child: it returns the shim's error, wrapped, and the file system is
    the one the fetch left, with no temporary file in it. *)
Theorem Run_aborts_when_temp_fails h args output fs fs1 content patched :
  FetchNative h (GlobalCacheDir h) fs = (fs1, None) ->
  locate fs1 args <> [] ->
  ReadFile fs1 (locate fs1 args) = Some content ->
  Evaluate content = Patched patched ->
  (CreateTemp_pick (temp_oracle h) = None \/
   (exists tmp, CreateTemp_pick (temp_oracle h) = Some tmp /\ fs1 tmp <> None) \/
   WriteString_fails (temp_oracle h) <> None) ->
  spawned (Run h args output fs) = None /\
  (exists ctx cause,
     returned (Run h args output fs)
     = Some (Wrapped (str "failed to shim schema") []
               (Wrapped ctx [] cause)) /\
     (ctx = str "could not create temp schema file" \/
      ctx = str "could not write to temp schema file")) /\
  (forall q, final_fs (Run h args output fs) q = fs1 q).
Proof.
  intros Hf Hl Hr He Hfail. unfold Run. rewrite Hf.
  unfold shimSchemaCompatibility, CreateTemp, WriteString.
  destruct (streq_spec (locate fs1 args) []); [contradiction|].
  rewrite Hr, He.
  destruct (CreateTemp_pick (temp_oracle h)) as [tmp|] eqn:Hp.
  - destruct (fs1 tmp) eqn:Hfresh.
    + split; [reflexivity|]. split; [|reflexivity].
      do 2 eexists. split; [reflexivity|]. now left.
    + destruct (WriteString_fails (temp_oracle h)) as [n0|] eqn:Hw.
      * split; [reflexivity|].
        split; [do 2 eexists; split; [reflexivity|]; now right|].
        intros q. cbn [final_fs]. destruct (streq_spec q tmp) as [->|Hq].
        -- rewrite Remove_same. congruence.
        -- rewrite Remove_other, !put_other by exact Hq. reflexivity.
      * exfalso. destruct Hfail as [H|[(t & Ht & Hex)|H]]; congruence.
  - split; [reflexivity|]. split; [|reflexivity].
    do 2 eexists. split; [reflexivity|]. now left.
Qed.

Lemma Run_aborts_when_temp_fails_witness :
  spawned (Run (Build_Host (GlobalCacheDir demo_host) (FetchNative demo_host)
                  (PrismaCLIName demo_host) (BinaryName demo_host)
                  (Engines demo_host) (EngineVersion demo_host)
                  (Environ demo_host) (Getenv demo_host) (path_Join demo_host)
                  (cmd_Run demo_host)
                  {| CreateTemp_pick := Some demo_tmp;
                     WriteString_fails := Some 3 |})
             demo_args true demo_fs) = None.
Proof.
  apply (@Run_aborts_when_temp_fails _ demo_args true demo_fs demo_fs
           doc_postgres doc_postgres_patched).
  - reflexivity.
  - discriminate.
  - reflexivity.
  - vm_compute. reflexivity.
  - right. right. discriminate.
Defined.

Lemma shim_no_path o fs args :
  locate fs args = [] ->
  shimSchemaCompatibility o fs args = (fs, (args, None, None)).
Proof. intros E. unfold shimSchemaCompatibility. rewrite E. reflexivity. Qed.

Lemma locate_nothing fs args :
  no_schema_flag args ->
  fs (str "./schema.prisma") = None ->
  fs (str "./prisma/schema.prisma") = None ->
  locate fs args = [].
Proof.
  intros Hno H1 H2. unfold locate. rewrite (findSchemaPath_none Hno).
  cbn [streq first_existing defaultPaths]. unfold Stat_ok.
  rewrite H1, H2. reflexivity.
Qed.

(** X11: when there is nothing to patch, because the arguments hold no
    schema flag and neither default schema file exists, or because the
    located schema needs no patch, [Run] is a plain pass-through: the
    child gets the arguments as given, on the file system the fetch left,
    nothing is created or removed afterwards, and the child's error, if
    any, comes back wrapped with those arguments. *)
Theorem Run_is_passthrough_without_patch h args output fs fs1 :
  FetchNative h (GlobalCacheDir h) fs = (fs1, None) ->
  (no_schema_flag args /\
   fs1 (str "./schema.prisma") = None /\
   fs1 (str "./prisma/schema.prisma") = None) \/
  (exists content,
     ReadFile fs1 (locate fs1 args) = Some content /\
     Evaluate content = Unchanged) ->
  let cmd := command h args output in
  spawned (Run h args output fs) = Some cmd /\
  final_fs (Run h args output fs) = fst (cmd_Run h cmd fs1) /\
  returned (Run h args output fs)
  = match snd (cmd_Run h cmd fs1) with
    | Some err => Some (Wrapped (str "could not run") args err)
    | None => None
    end.
Proof.
  intros Hf Hcause cmd.
  assert (shimSchemaCompatibility (temp_oracle h) fs1 args
          = (fs1, (args, None, None))) as Hs.
  { destruct Hcause as [(Hno & H1 & H2)|(content & Hr & He)].
    - apply shim_no_path. exact (@locate_nothing _ _ Hno H1 H2).
    - apply shim_noop. rewrite Hr. exact He. }
  unfold Run. rewrite Hf, Hs. fold cmd.
  destruct (cmd_Run h cmd fs1) as [fs3 [e|]]; repeat split.
Qed.

Lemma Run_is_passthrough_without_patch_witness :
  spawned (Run demo_host [str "version"] false (fun _ => None))
  = Some (command demo_host [str "version"] false).
Proof.
  apply (@Run_is_passthrough_without_patch demo_host [str "version"] false
           (fun _ => None) (fun _ => None)).
  - reflexivity.
  - left. split; [|split; reflexivity].
    intros [|x [|y pre]] a post E; try discriminate E.
    injection E as <- <-. split; [reflexivity|discriminate].
Defined.

(** X12: [Run] leaves the file system as it found it whenever its two
    collaborators do: if the fetch of the binaries and the child process
    change no path, then after [Run] every path, the temporary one
    included, holds what it held before the call, on each of the ways
    [Run] can return. *)
Theorem Run_leaves_file_system h args output fs :
  (forall d fs0 q, fst (FetchNative h d fs0) q = fs0 q) ->
  (forall c fs0 q, fst (cmd_Run h c fs0) q = fs0 q) ->
  forall q, final_fs (Run h args output fs) q = fs q.
Proof.
  intros Hfetch Hchild q. unfold Run.
  pose proof (Hfetch (GlobalCacheDir h) fs) as H1.
  destruct (FetchNative h (GlobalCacheDir h) fs) as [fs1 [e|]]; cbn [fst] in H1;
    [apply H1|].
  pose proof (shim_effect (temp_oracle h) fs1 args) as E.
  destruct (shimSchemaCompatibility (temp_oracle h) fs1 args)
    as [fs2 [[na [d|]] er]].
  - destruct E as (tmp & content & patched & -> & -> & _ & _ & _ & _
                   & Hfresh & _ & Hframe).
    pose proof (Hchild (command h na output) fs2) as H3.
    assert (Remove (fst (cmd_Run h (command h na output) fs2)) tmp q = fs q)
      as Hfin.
    { destruct (streq_spec q tmp) as [->|Hq].
      - rewrite Remove_same, <- H1. symmetry. exact Hfresh.
      - rewrite Remove_other, H3, (Hframe q Hq) by exact Hq. apply H1. }
    destruct (cmd_Run h (command h na output) fs2) as [fs3 [e|]];
      cbn [final_fs run_deferred call fst] in *; exact Hfin.
  - destruct E as [_ Hsame].
    destruct er as [e|]; cbn [final_fs]; [rewrite Hsame; apply H1|].
    pose proof (Hchild (command h na output) fs2 q) as H3.
    destruct (cmd_Run h (command h na output) fs2) as [fs3 [e|]];
      cbn [final_fs run_deferred fst] in *; rewrite H3, Hsame; apply H1.
Qed.

Lemma Run_leaves_file_system_witness :
  final_fs (Run demo_host demo_args true demo_fs) demo_tmp = None /\
  final_fs (Run demo_host demo_args true demo_fs) (str "a.prisma")
  = Some (Contents doc_postgres).
Proof.
  split.
  - apply (@Run_leaves_file_system demo_host demo_args true demo_fs);
      reflexivity.
  - apply (@Run_leaves_file_system demo_host demo_args true demo_fs);
      reflexivity.
Defined.

Lemma findSchemaPath_rewriteArgs args tmp :
  (no_schema_flag args -> last args [] <> flag_schema) ->
  findSchemaPath (rewriteArgs args tmp) = tmp.
Proof.
  intros Hlast.
  destruct (schema_flag_cases args)
    as [(pre & v & post & -> & Hp)|[(pre & v & post & -> & Hp)|Hno]].
  - rewrite (rewriteArgs_split tmp v post Hp).
    exact (findSchemaPath_split tmp post Hp).
  - assert (rewriteArgs (pre ++ (flag_schema_eq ++ v) :: post) tmp
            = pre ++ (flag_schema_eq ++ tmp) :: post) as ->
      by exact (rewriteArgs_joined tmp v post Hp).
    exact (findSchemaPath_joined tmp post Hp).
  - rewrite (rewriteArgs_append tmp Hno).
    exact (findSchemaPath_split tmp [] (no_flag_tokens Hno (Hlast Hno))).
Qed.

(** X13: the shim does nothing on its own result: run again on the
    arguments and the file system it returned after a patch, with any
    outcome of the operating system, it locates the temporary file, finds
    the url property there, and returns those arguments unchanged without
    creating a file. The arguments must not be of the one form, no
    schema flag and a lone [--schema] at the end, in which the appended
    path is not read back. *)
Theorem shim_on_its_result_is_noop o o' fs args fs2 newArgs tmp :
  shimSchemaCompatibility o fs args
  = (fs2, (newArgs, Some (RemoveFile tmp), None)) ->
  tmp <> [] ->
  (no_schema_flag args -> last args [] <> flag_schema) ->
  locate fs2 newArgs = tmp /\
  shimSchemaCompatibility o' fs2 newArgs = (fs2, (newArgs, None, None)).
Proof.
  intros Hs Htmp Hlast.
  pose proof (shim_effect o fs args) as E. rewrite Hs in E.
  destruct E as (tmp' & content & patched & Ed & _ & _ & -> & _ & He & _
                 & Hnew & _).
  injection Ed as <-.
  assert (locate fs2 (rewriteArgs args tmp) = tmp) as Hl.
  { unfold locate. rewrite (findSchemaPath_rewriteArgs tmp Hlast).
    destruct (streq_spec tmp []); [contradiction|reflexivity]. }
  split; [exact Hl|]. apply shim_noop. rewrite Hl.
  unfold ReadFile. rewrite Hnew. exact (@Evaluate_of_patched _ _ He).
Qed.

Lemma shim_on_its_result_is_noop_witness :
  locate (fst (shimSchemaCompatibility (temp_oracle demo_host) demo_fs
                 demo_args))
    [str "migrate"; str "dev"; str "--schema=/tmp/schema-1.prisma"]
  = demo_tmp.
Proof.
  apply (@shim_on_its_result_is_noop (temp_oracle demo_host)
           (temp_oracle demo_host) demo_fs demo_args
           (fst (shimSchemaCompatibility (temp_oracle demo_host) demo_fs
                   demo_args))
           [str "migrate"; str "dev"; str "--schema=/tmp/schema-1.prisma"]
           demo_tmp eq_refl).
  - discriminate.
  - intros Hno. exfalso.
    destruct (Hno [str "migrate"; str "dev"] (str "--schema=a.prisma") []
                eq_refl) as [H _].
    discriminate H.
Defined.

(** X14: the two fixed entries cannot be overridden from outside:
    whatever the ambient environment holds for
    [PRISMA_HIDE_UPDATE_MESSAGE] and [PRISMA_CLI_QUERY_ENGINE_TYPE], the
    last entries for these names in the child's environment are [true]
    and [binary], unless an engine descriptor uses one of the names for
    its own variable. *)
Theorem fixed_entries_win h dir bn :
  (forall e, In e (Engines h) -> ~ In "="%char (Env e)) ->
  ~ In (str "PRISMA_HIDE_UPDATE_MESSAGE") (map Env (Engines h)) ->
  ~ In (str "PRISMA_CLI_QUERY_ENGINE_TYPE") (map Env (Engines h)) ->
  effective (str "PRISMA_HIDE_UPDATE_MESSAGE") (build_env h dir bn)
  = Some (str "true") /\
  effective (str "PRISMA_CLI_QUERY_ENGINE_TYPE") (build_env h dir bn)
  = Some (str "binary").
Proof.
  intros Hkeys H1 H2. rewrite build_env_closed, !effective_app.
  rewrite (@effective_none h dir bn _ _ H1), (@effective_none h dir bn _ _ H2);
    try exact Hkeys.
  - split; reflexivity.
  - intros H. repeat (destruct H as [H|H]; [discriminate H|]). exact H.
  - intros H. repeat (destruct H as [H|H]; [discriminate H|]). exact H.
Qed.

Lemma fixed_entries_win_witness :
  effective (str "PRISMA_CLI_QUERY_ENGINE_TYPE")
    (build_env
       (Build_Host (GlobalCacheDir demo_host) (FetchNative demo_host)
          (PrismaCLIName demo_host) (BinaryName demo_host)
          (Engines demo_host) (EngineVersion demo_host)
          [str "PRISMA_CLI_QUERY_ENGINE_TYPE=library"] (Getenv demo_host)
          (path_Join demo_host) (cmd_Run demo_host) (temp_oracle demo_host))
       (str "/cache") (str "linux"))
  = Some (str "binary").
Proof.
  apply (@fixed_entries_win _ (str "/cache") (str "linux")).
  - intros e [<-|[<-|[]]]; cbn; intuition discriminate.
  - cbn. intuition discriminate.
  - cbn. intuition discriminate.
Defined.

(** X15: what a caller of the shim can rely on: the file system after the
    shim differs from the one before at a path only if that path did not
    exist, no error is returned, and the returned disposer removes exactly
    that path; an error never comes with a disposer; and without a
    disposer the returned arguments are the ones passed in. *)
Theorem shim_result_contract o fs args :
  let '(fs', (newArgs, cleanup, err)) := shimSchemaCompatibility o fs args in
  (forall q, fs' q <> fs q ->
     cleanup = Some (RemoveFile q) /\ fs q = None /\ err = None) /\
  (err <> None -> cleanup = None) /\
  (cleanup = None -> newArgs = args).
Proof.
  pose proof (shim_effect o fs args) as E.
  destruct (shimSchemaCompatibility o fs args) as [fs' [[na [d|]] er]].
  - destruct E as (tmp & content & patched & -> & -> & _ & _ & _ & _
                   & Hfresh & _ & Hframe).
    split; [|split]; [|congruence|discriminate].
    intros q Hq. destruct (streq_spec q tmp) as [->|Hne].
    + auto.
    + exfalso. exact (Hq (Hframe q Hne)).
  - destruct E as [-> Hsame]. split; [|split]; [|reflexivity|reflexivity].
    intros q Hq. exfalso. exact (Hq (Hsame q)).
Qed.
